(** * OCR scoring, correction, ranking and caching core

    A shallow embedding of the Python modules [accuracy_metrics.py],
    [smart_correction.py] and of the cache of [text_recognizer.py],
    together with the properties of these functions.

    A Python [str] is modelled as a list of characters.  A character is a
    code point below 256, which is what the type [ascii] holds; the
    character tables of module [Characters] give Python's classification of
    exactly these code points.  Python floats are idealised as exact
    rationals ([Q]); the integer division [d / n] of Python is the
    rational [d / n]. *)

From Stdlib Require Import List Arith Bool Lia ZArith QArith Qminmax.
From Stdlib Require Import Ascii Permutation Sorted.
From Stdlib Require String.
Import ListNotations String.StringSyntax.

Local Open Scope nat_scope.
Local Open Scope list_scope.

(** The text type, and string literals for it. *)
Abbreviation text := (list ascii).

Definition str (s : String.string) : text := String.list_ascii_of_string s.

Delimit Scope string_scope with string.
Arguments str s%_string.

(** Python's [enumerate]. *)
Definition enumerate_from {A : Type} (start : nat) (l : list A) : list (nat * A) :=
  combine (seq start (length l)) l.

Definition enumerate {A : Type} (l : list A) : list (nat * A) :=
  enumerate_from 0 l.

(** Python's three-argument [min] on integers. *)
Definition min3 (a b c : nat) : nat := Nat.min a (Nat.min b c).

(** ** Characters

    Python's classification of the code points below 256:
    [str.isspace] (which is also the class [\s] of [re]), the class [\w]
    of [re] (alphanumeric code points and the underscore), the ranges
    [[A-Z]], [[a-z]] and [[a-zA-Z]] of the patterns, and the case
    mappings. *)

Module Characters.

Definition code (c : ascii) : nat := nat_of_ascii c.

Definition in_range (lo hi : nat) (c : ascii) : bool :=
  (lo <=? code c) && (code c <=? hi).

(** [[A-Z]] *)
Definition is_AZ (c : ascii) : bool := in_range 65 90 c.

(** [[a-z]] *)
Definition is_az (c : ascii) : bool := in_range 97 122 c.

(** [[a-zA-Z]] *)
Definition is_azAZ (c : ascii) : bool := is_az c || is_AZ c.

(** [str.isspace] and [\s]: tab to carriage return, the four separators
    28 to 31, the space, NEL and the no-break space. *)
Definition isspace (c : ascii) : bool :=
  in_range 9 13 c || in_range 28 32 c || (code c =? 133) || (code c =? 160).

(** [str.isalnum] below 256: digits and letters of ASCII, the ordinal
    indicators, the micro sign, superscript digits, vulgar fractions and
    the Latin-1 letters (all of 192 to 255 but the two operators). *)
Definition isalnum (c : ascii) : bool :=
  in_range 48 57 c || in_range 65 90 c || in_range 97 122 c
  || (code c =? 170) || (code c =? 178) || (code c =? 179)
  || (code c =? 181) || (code c =? 185) || (code c =? 186)
  || in_range 188 190 c || in_range 192 214 c || in_range 216 246 c
  || in_range 248 255 c.

(** [\w] *)
Definition is_word (c : ascii) : bool := isalnum c || (code c =? 95).

(** [str.lower] on one character: the capital letters of ASCII and of
    Latin-1 move up by 32, every other code point is kept. *)
Definition lower_char (c : ascii) : ascii :=
  if in_range 65 90 c || in_range 192 214 c || in_range 216 222 c
  then ascii_of_nat (code c + 32) else c.

(** [str.upper] on one character of [[a-zA-Z]], the only characters the
    module applies it to (the groups it upper-cases match [[a-zA-Z]+] or
    [[A-Z]{1,3}[a-z]{1,3}]). *)
Definition upper_char (c : ascii) : ascii :=
  if in_range 97 122 c then ascii_of_nat (code c - 32) else c.

(** [str.lower] and [str.upper]; on code points below 256 the lower-case
    mapping is a map on the characters ([Unicode.lower_u] has the one rule
    that reads the neighbours, that of the capital sigma). *)
Definition lower (t : text) : text := map lower_char t.
Definition upper (t : text) : text := map upper_char t.

(** Equality of texts, [==] on [str]. *)
Fixpoint text_eqb (a b : text) : bool :=
  match a, b with
  | [], [] => true
  | x :: a', y :: b' => Ascii.eqb x y && text_eqb a' b'
  | _, _ => false
  end.

(** Truth value of a sequence: [not s] holds of the empty one. *)
Definition is_empty {A : Type} (l : list A) : bool :=
  match l with [] => true | _ => false end.

(** [str.strip()] *)
Fixpoint lstrip (t : text) : text :=
  match t with
  | c :: t' => if isspace c then lstrip t' else t
  | [] => []
  end.

Definition strip (t : text) : text := rev (lstrip (rev (lstrip t))).

(** [str.split()] without argument: the maximal runs of characters that
    are not white space.  [word] is the run being read. *)
Fixpoint split_from (word : text) (t : text) : list text :=
  match t with
  | [] => if is_empty word then [] else [word]
  | c :: t' =>
      if isspace c
      then (if is_empty word then split_from [] t' else word :: split_from [] t')
      else split_from (word ++ [c]) t'
  end.

Definition split (t : text) : list text := split_from [] t.

(** Two texts that differ only in letter case: the same length, and at
    each index the same character up to its case. *)
Definition same_up_to_case (a b : text) : Prop :=
  Forall2 (fun x y => lower_char x = lower_char y) a b.

End Characters.

(** ** The fragment of Python's [re] that the patterns use

    A pattern is a term of [regex]; matching is by backtracking, greedy
    repetition first, and the search is leftmost.  Every pattern of this
    program consumes at least one character, so no match is empty. *)

Module Re.
Import Characters.

Inductive regex : Type :=
| Lit (c : ascii)                     (* a literal character *)
| Class (p : ascii -> bool)           (* one character of a class *)
| Boundary                            (* \b *)
| Ahead (p : ascii -> bool)           (* (?=[...]) *)
| Behind (p : ascii -> bool)          (* (?<=[...]) *)
| Repeat (p : ascii -> bool) (lo : nat) (hi : option nat)
                                      (* [...]{lo,hi}, [...]+ is {1,} *)
| Group (r : regex)                   (* ( ... ), capturing *)
| Cat (r1 r2 : regex).                (* concatenation *)

(** A position in the subject: the character before it, its index, and the
    characters from it on. *)
Record cursor : Type := mkCursor {
  before : option ascii;
  pos : nat;
  rest : text
}.

Definition advance (c : ascii) (rest' : text) (cur : cursor) : cursor :=
  mkCursor (Some c) (S (pos cur)) rest'.

Definition word_at (c : option ascii) : bool :=
  match c with Some x => is_word x | None => false end.

(** [\b]: exactly one of the two neighbours is a word character. *)
Definition at_boundary (cur : cursor) : bool :=
  xorb (word_at (before cur)) (word_at (hd_error (rest cur))).

(** A match object: its span and the spans of its groups, in the order of
    the closing parentheses (the patterns nest no groups). *)
Record rmatch : Type := mkMatch {
  m_start : nat;
  m_end : nat;
  m_groups : list (nat * nat)
}.

(** Greedy repetition of a class: at most [more] further characters, at
    least [lo]; the longest run is tried first, shorter ones on failure
    of the continuation. *)
Fixpoint repeat_class {R : Type} (p : ascii -> bool) (lo more : nat)
    (cur : cursor) (k : cursor -> option R) : option R :=
  let stop := if lo =? 0 then k cur else None in
  match more with
  | 0 => stop
  | S more' =>
      match rest cur with
      | c :: rest' =>
          if p c then
            match repeat_class p (pred lo) more' (advance c rest' cur) k with
            | Some res => Some res
            | None => stop
            end
          else stop
      | [] => stop
      end
  end.

(** Matching at a cursor, with the continuation [k] for what follows. *)
Fixpoint match_here {R : Type} (r : regex) (cur : cursor)
    (gs : list (nat * nat))
    (k : cursor -> list (nat * nat) -> option R) : option R :=
  match r with
  | Lit c =>
      match rest cur with
      | x :: rest' =>
          if Ascii.eqb x c then k (advance x rest' cur) gs else None
      | [] => None
      end
  | Class p =>
      match rest cur with
      | x :: rest' => if p x then k (advance x rest' cur) gs else None
      | [] => None
      end
  | Boundary => if at_boundary cur then k cur gs else None
  | Ahead p =>
      match rest cur with
      | x :: _ => if p x then k cur gs else None
      | [] => None
      end
  | Behind p =>
      match before cur with
      | Some x => if p x then k cur gs else None
      | None => None
      end
  | Repeat p lo hi =>
      let more := match hi with Some h => h | None => length (rest cur) end in
      repeat_class p lo more cur (fun cur' => k cur' gs)
  | Group r' =>
      match_here r' cur gs
        (fun cur' gs' => k cur' (gs' ++ [(pos cur, pos cur')]))
  | Cat r1 r2 =>
      match_here r1 cur gs (fun cur' gs' => match_here r2 cur' gs' k)
  end.

Definition match_at (r : regex) (cur : cursor) : option rmatch :=
  match_here r cur []
    (fun cur' gs => Some (mkMatch (pos cur) (pos cur') gs)).

(** The search from left to right; after a match the characters it
    covers are passed over ([skip] counts those still to pass). *)
Fixpoint scan (r : regex) (prev : option ascii) (i : nat) (t : text)
    (skip : nat) : list rmatch :=
  match skip with
  | S skip' =>
      match t with
      | c :: t' => scan r (Some c) (S i) t' skip'
      | [] => []
      end
  | 0 =>
      match match_at r (mkCursor prev i t) with
      | Some m =>
          m :: match t with
               | c :: t' => scan r (Some c) (S i) t' (m_end m - i - 1)
               | [] => []
               end
      | None =>
          match t with
          | c :: t' => scan r (Some c) (S i) t' 0
          | [] => []
          end
      end
  end.

(** [pattern.finditer(text)], as a list. *)
Definition finditer (r : regex) (t : text) : list rmatch := scan r None 0 t 0.

(** [text[a:b]] for [a <= b]. *)
Definition slice (t : text) (a b : nat) : text := firstn (b - a) (skipn a t).

(** [match.group(n)] on the subject [t]. *)
Definition group (t : text) (m : rmatch) (n : nat) : text :=
  match n with
  | 0 => slice t (m_start m) (m_end m)
  | S n' =>
      match nth_error (m_groups m) n' with
      | Some (a, b) => slice t a b
      | None => []
      end
  end.

(** The text between and after the matches, each match replaced. *)
Fixpoint replace_matches (t : text) (from : nat) (ms : list rmatch)
    (repl : rmatch -> text) : text :=
  match ms with
  | [] => skipn from t
  | m :: ms' =>
      slice t from (m_start m) ++ repl m ++ replace_matches t (m_end m) ms' repl
  end.

(** [pattern.sub(repl, text)] for a function [repl]. *)
Definition sub_with (r : regex) (repl : text -> rmatch -> text) (t : text) : text :=
  replace_matches t 0 (finditer r t) (repl t).

(** [pattern.sub(repl, text)] for a string [repl] without escapes. *)
Definition sub (r : regex) (repl : text) (t : text) : text :=
  sub_with r (fun _ _ => repl) t.

Declare Scope regex_scope.
Delimit Scope regex_scope with regex.
Infix ";;" := Cat (at level 61, right associativity) : regex_scope.

End Re.

(** ** smart_correction.py *)

Module SmartCorrection.
Import Characters Re.
Local Open Scope regex_scope.

Definition PATTERN_RM : regex :=
  Boundary ;; Group (Class is_AZ) ;; Lit "r"%char ;; Lit "m"%char ;;
  Group (Repeat is_azAZ 1 None) ;; Boundary.
Definition PATTERN_RM_UPPER : regex := Lit "r"%char ;; Lit "m"%char ;; Ahead is_AZ.
Definition PATTERN_RM_AFTER : regex := Behind is_AZ ;; Lit "r"%char ;; Lit "m"%char.
Definition PATTERN_RM_STANDALONE : regex :=
  Boundary ;; Lit "r"%char ;; Lit "m"%char ;; Boundary.
Definition PATTERN_RN_STANDALONE : regex :=
  Boundary ;; Lit "R"%char ;; Lit "n"%char ;; Boundary.
Definition PATTERN_RN_BETWEEN : regex :=
  Behind is_AZ ;; Lit "r"%char ;; Lit "n"%char ;; Ahead is_AZ.
Definition PATTERN_RN_END : regex :=
  Behind is_AZ ;; Lit "r"%char ;; Lit "n"%char ;; Boundary.
Definition PATTERN_NN_BETWEEN : regex :=
  Behind is_AZ ;; Lit "n"%char ;; Lit "n"%char ;; Ahead is_AZ.
Definition PATTERN_NN_STANDALONE : regex :=
  Boundary ;; Lit "n"%char ;; Lit "n"%char ;; Boundary.
Definition PATTERN_SHORT_WORDS : regex :=
  Boundary ;; Group (Repeat is_AZ 1 (Some 3)) ;;
  Group (Repeat is_az 1 (Some 3)) ;; Boundary.

Definition CHAR_REPLACEMENTS : list (regex * text) :=
  [ (Boundary ;; Lit "0"%char ;; Ahead is_AZ, ["O"%char]);
    (Behind is_AZ ;; Lit "0"%char ;; Ahead is_AZ, ["O"%char]);
    (Behind is_AZ ;; Lit "0"%char ;; Boundary, ["O"%char]);
    (Boundary ;; Lit "1"%char ;; Ahead is_AZ, ["I"%char]);
    (Behind is_AZ ;; Lit "1"%char ;; Ahead is_AZ, ["I"%char]);
    (Boundary ;; Lit "5"%char ;; Ahead is_AZ, ["S"%char]);
    (Behind is_AZ ;; Lit "5"%char ;; Boundary, ["S"%char]);
    (Boundary ;; Lit "8"%char ;; Ahead is_AZ, ["B"%char]);
    (Behind is_AZ ;; Lit "8"%char ;; Boundary, ["B"%char]);
    (Boundary ;; Lit "l"%char ;; Ahead is_AZ, ["I"%char]);
    (Behind is_AZ ;; Lit "l"%char ;; Boundary, ["I"%char]);
    (Boundary ;; Lit "v"%char ;; Lit "v"%char, ["W"%char]);
    (Behind is_AZ ;; Lit "v"%char ;; Lit "v"%char, ["W"%char]);
    (Behind is_AZ ;; Lit "v"%char ;; Boundary, ["Y"%char]) ].

(** An entry of the list [corrections]; the three formatted strings of the
    source. *)
Inductive description : Type :=
| WordRepaired (original_word fixed_word : text)
    (* f"'{original_word}' -> '{fixed_word}'", with an arrow *)
| FixedCapitalization       (* "Fixed capitalization in short words" *)
| FixedCharacterConfusion.  (* "Fixed character confusion" *)

Record correction_result : Type := mkCorrection {
  original : text;
  corrected : text;
  changed : bool;
  corrections : list description
}.

(** The body of the first loop, for one match of [PATTERN_RM] on the
    input [subject]. *)
Definition repair_word (subject : text) (st : text * list description)
    (m : rmatch) : text * list description :=
  let (corrected, corrections) := st in
  let original_word := group subject m 0 in
  let fixed_word := group subject m 1 ++ ["M"%char] ++ upper (group subject m 2) in
  (firstn (m_start m) corrected ++ fixed_word ++ skipn (m_end m) corrected,
   corrections ++ [WordRepaired original_word fixed_word]).

(** The first loop: the matches are rewritten from the last to the first. *)
Definition repair_rm_words (t : text) : text * list description :=
  fold_left (repair_word t) (rev (finditer PATTERN_RM t)) (t, []).

(** The eight substitutions that follow, none of which records an entry. *)
Definition collapse_rm_rn_nn (t : text) : text :=
  let corrected := sub PATTERN_RM_UPPER ["M"%char] t in
  let corrected := sub PATTERN_RM_AFTER ["M"%char] corrected in
  let corrected := sub PATTERN_RM_STANDALONE ["M"%char] corrected in
  let corrected := sub PATTERN_RN_STANDALONE ["M"%char] corrected in
  let corrected := sub PATTERN_RN_BETWEEN ["M"%char] corrected in
  let corrected := sub PATTERN_RN_END ["M"%char] corrected in
  let corrected := sub PATTERN_NN_BETWEEN ["M"%char] corrected in
  sub PATTERN_NN_STANDALONE ["m"%char] corrected.

Definition uppercase_short_words (subject : text) (m : rmatch) : text :=
  let word := group subject m 0 in
  if (2 <=? length word) && (length word <=? 5) then upper word else word.

(** The body of the last loop, for one pair of [CHAR_REPLACEMENTS]. *)
Definition replace_chars (st : text * list description)
    (pr : regex * text) : text * list description :=
  let (corrected, corrections) := st in
  let (pattern, replacement) := pr in
  let before := corrected in
  let corrected := sub pattern replacement corrected in
  if negb (text_eqb before corrected)
  then (corrected, corrections ++ [FixedCharacterConfusion])
  else (corrected, corrections).

Definition correct_common_mistakes (t : text) : correction_result :=
  let original := t in
  let (corrected, corrections) := repair_rm_words t in
  let corrected := collapse_rm_rn_nn corrected in
  let before := corrected in
  let corrected := sub_with PATTERN_SHORT_WORDS uppercase_short_words corrected in
  let corrections :=
    if negb (text_eqb before corrected)
    then corrections ++ [FixedCapitalization] else corrections in
  let (corrected, corrections) :=
    fold_left replace_chars CHAR_REPLACEMENTS (corrected, corrections) in
  mkCorrection original corrected (negb (text_eqb original corrected)) corrections.

Record smart_result : Type := mkSmart {
  sr_original : text;
  auto_corrected : text;
  corrections_applied : list description;
  best_result : text
}.

Definition smart_correct (t : text) : smart_result :=
  let auto := correct_common_mistakes t in
  mkSmart t (corrected auto) (corrections auto) (corrected auto).

(** The entry that the first loop records for the match [m]. *)
Definition repaired_entry (subject : text) (m : rmatch) : description :=
  WordRepaired (group subject m 0)
    (group subject m 1 ++ ["M"%char] ++ upper (group subject m 2)).

(** The text that enters each stage of [correct_common_mistakes]. *)
Definition text_after_repair (t : text) : text := fst (repair_rm_words t).
Definition text_after_collapse (t : text) : text :=
  collapse_rm_rn_nn (text_after_repair t).
Definition text_after_short_words (t : text) : text :=
  sub_with PATTERN_SHORT_WORDS uppercase_short_words (text_after_collapse t).

(** The texts before and after each pair of the last loop, in order. *)
Fixpoint char_stage_trace (prs : list (regex * text)) (t : text)
    : list (text * text) :=
  match prs with
  | [] => []
  | (pattern, replacement) :: prs' =>
      (t, sub pattern replacement t)
        :: char_stage_trace prs' (sub pattern replacement t)
  end.

(** The number of pairs of the last loop that altered the text. *)
Definition char_stages_fired (t : text) : nat :=
  length (filter (fun bc => negb (text_eqb (fst bc) (snd bc)))
            (char_stage_trace CHAR_REPLACEMENTS t)).

End SmartCorrection.

(** ** accuracy_metrics.py: calculate_levenshtein_distance *)

Module Levenshtein.

(** The integer value of the comparison [c1 != c2]. *)
Definition neq_cost (c1 c2 : ascii) : nat :=
  if Ascii.eqb c1 c2 then 0 else 1.

(** The inner loop: builds [current_row] from [previous_row]. *)
Definition levenshtein_row (i : nat) (c1 : ascii) (s2 : text)
    (previous_row : list nat) : list nat :=
  fold_left
    (fun current_row (jc : nat * ascii) =>
       let (j, c2) := jc in
       let insertions := nth (j + 1) previous_row 0 + 1 in
       let deletions := nth j current_row 0 + 1 in
       let substitutions := nth j previous_row 0 + neq_cost c1 c2 in
       current_row ++ [min3 insertions deletions substitutions])
    (enumerate s2) [i + 1].

(** The outer loop: the row left in [previous_row] when the loop ends. *)
Definition levenshtein_rows (s1 s2 : text) : list nat :=
  fold_left
    (fun previous_row (ic : nat * ascii) =>
       let (i, c1) := ic in levenshtein_row i c1 s2 previous_row)
    (enumerate s1) (seq 0 (length s2 + 1)).

(** The function below its first test, [len(s1) >= len(s2)] being known. *)
Definition levenshtein_ordered (s1 s2 : text) : nat :=
  if length s2 =? 0 then length s1
  else last (levenshtein_rows s1 s2) 0.

(** The recursive call swaps the arguments, after which the first test
    fails: the recursion has depth at most one. *)
Definition calculate_levenshtein_distance (s1 s2 : text) : nat :=
  if length s1 <? length s2 then levenshtein_ordered s2 s1
  else levenshtein_ordered s1 s2.

(** The textbook recurrence, on the last characters of both words: the
    words are given reversed. *)
Fixpoint edit_distance (a b : text) {struct a} : nat :=
  match a with
  | [] => length b
  | x :: a' =>
      (fix against (b : text) : nat :=
         match b with
         | [] => S (length a')
         | y :: b' =>
             min3 (edit_distance a' b + 1) (against b' + 1)
                  (edit_distance a' b' + neq_cost x y)
         end) b
  end.

(** The row of the table for the reversed prefix [p] of the first word. *)
Definition row_of (p : text) (s2 : text) : list nat :=
  map (fun j => edit_distance p (rev (firstn j s2))) (seq 0 (length s2 + 1)).

(** The part of the next row that the inner loop has built once it has
    read [k] characters of the second word. *)
Definition partial_row (p : text) (s2 : text) (k : nat) : list nat :=
  map (fun j => edit_distance p (rev (firstn j s2))) (seq 0 (k + 1)).

End Levenshtein.

(** ** accuracy_metrics.py: the metrics *)

Module AccuracyMetrics.
Import Characters Re Levenshtein.

(** [\s+] *)
Definition PATTERN_SPACES : regex := Repeat isspace 1 None.

Definition normalize_text (t : text) : text :=
  let t := lower t in
  let t := sub PATTERN_SPACES [" "%char] t in
  strip t.

(** [len(s)] as a float operand. *)
Definition Qlen {A : Type} (l : list A) : Q := inject_Z (Z.of_nat (length l)).

Definition Qnat (n : nat) : Q := inject_Z (Z.of_nat n).

Definition calculate_cer (ground_truth predicted : text) : Q :=
  if is_empty ground_truth then
    (if is_empty predicted then 0 else 1)%Q
  else
    let distance := calculate_levenshtein_distance ground_truth predicted in
    let cer := (Qnat distance / Qlen ground_truth)%Q in
    Qmin cer 1.

(** [l[i] = v] for an index in range, the only ones the table is
    written at. *)
Fixpoint set_nth {A : Type} (i : nat) (v : A) (l : list A) : list A :=
  match l, i with
  | [], _ => []
  | _ :: l', 0 => v :: l'
  | x :: l', S i' => x :: set_nth i' v l'
  end.

(** [dp[i][j]] and [dp[i][j] = v]. *)
Definition get2 (dp : list (list nat)) (i j : nat) : nat :=
  nth j (nth i dp []) 0.

Definition set2 (dp : list (list nat)) (i j v : nat) : list (list nat) :=
  set_nth i (set_nth j v (nth i dp [])) dp.

(** The body of the two nested loops of [calculate_wer]. *)
Definition wer_cell (gt_words pred_words : list text) (i : nat)
    (dp : list (list nat)) (j : nat) : list (list nat) :=
  if text_eqb (nth (i - 1) gt_words []) (nth (j - 1) pred_words [])
  then set2 dp i j (get2 dp (i - 1) (j - 1))
  else set2 dp i j
         (1 + min3 (get2 dp (i - 1) j) (get2 dp i (j - 1))
                   (get2 dp (i - 1) (j - 1))).

(** The table [dp] when the loops have ended. *)
Definition wer_table (gt_words pred_words : list text) : list (list nat) :=
  let m := length gt_words in
  let n := length pred_words in
  let dp := repeat (repeat 0 (n + 1)) (m + 1) in
  let dp := fold_left (fun dp i => set2 dp i 0 i) (seq 0 (m + 1)) dp in
  let dp := fold_left (fun dp j => set2 dp 0 j j) (seq 0 (n + 1)) dp in
  fold_left
    (fun dp i => fold_left (wer_cell gt_words pred_words i) (seq 1 n) dp)
    (seq 1 m) dp.

(** The character distance of the joined words, which the source also
    computes, is never read and is left out. *)
Definition calculate_wer (ground_truth predicted : text) : Q :=
  let gt_words := split (normalize_text ground_truth) in
  let pred_words := split (normalize_text predicted) in
  if is_empty gt_words then
    (if is_empty pred_words then 0 else 1)%Q
  else
    let m := length gt_words in
    let n := length pred_words in
    let word_distance := get2 (wer_table gt_words pred_words) m n in
    let wer := (Qnat word_distance / Qlen gt_words)%Q in
    Qmin wer 1.

Definition calculate_accuracy (ground_truth predicted : text) : Q :=
  if is_empty ground_truth then
    (if is_empty predicted then 100 else 0)%Q
  else
    let cer := calculate_cer ground_truth predicted in
    Qmax 0 ((1 - cer) * 100)%Q.

(** [sum(1 for gt, pred in zip(gt_words, pred_words) if gt == pred)] *)
Definition correct_words (gt_words pred_words : list text) : nat :=
  length (filter (fun gp => text_eqb (fst gp) (snd gp))
            (combine gt_words pred_words)).

Definition calculate_word_accuracy (ground_truth predicted : text) : Q :=
  let gt_words := split (normalize_text ground_truth) in
  let pred_words := split (normalize_text predicted) in
  if is_empty gt_words then
    (if is_empty pred_words then 100 else 0)%Q
  else
    (Qnat (correct_words gt_words pred_words) / Qlen gt_words * 100)%Q.

(** The positional count in the words of the specification: the indices
    [i] of the reference at which the candidate has a word, the same one. *)
Definition positional_matches (ref_words cand_words : list text) : nat :=
  length (filter
            (fun i =>
               match nth_error ref_words i, nth_error cand_words i with
               | Some a, Some b => text_eqb a b
               | _, _ => false
               end)
            (seq 0 (length ref_words))).

(** The recurrence that the table of [calculate_wer] follows, on the last
    words of both lists: the lists are given reversed. *)
Fixpoint word_distance (a b : list text) {struct a} : nat :=
  match a with
  | [] => length b
  | x :: a' =>
      (fix against (b : list text) : nat :=
         match b with
         | [] => S (length a')
         | y :: b' =>
             if text_eqb x y then word_distance a' b'
             else 1 + min3 (word_distance a' b) (against b')
                           (word_distance a' b')
         end) b
  end.

(** The cell [(i, j)] of the table, by the recurrence. *)
Definition wer_cell_spec (gt_words pred_words : list text) (i j : nat) : nat :=
  word_distance (rev (firstn i gt_words)) (rev (firstn j pred_words)).

(** The table has [m + 1] rows of [n + 1] cells. *)
Definition shaped (m n : nat) (dp : list (list nat)) : Prop :=
  length dp = m + 1 /\ forall i, i <= m -> length (nth i dp []) = n + 1.

(** The cells designated by [filled] hold the value of the recurrence. *)
Definition filled_with (gt_words pred_words : list text)
    (filled : nat -> nat -> Prop) (dp : list (list nat)) : Prop :=
  shaped (length gt_words) (length pred_words) dp /\
  forall i j, i <= length gt_words -> j <= length pred_words -> filled i j ->
              get2 dp i j = wer_cell_spec gt_words pred_words i j.

(** The nearest integer, halves to the even one. *)
Definition round_half_even (q : Q) : Z :=
  let n := Qnum q in
  let d := Zpos (Qden q) in
  let f := (n / d)%Z in
  match (2 * (n mod d) ?= d)%Z with
  | Lt => f
  | Gt => (f + 1)%Z
  | Eq => if Z.even f then f else (f + 1)%Z
  end.

(** [round(x, 2)] *)
Definition round2 (q : Q) : Q := (inject_Z (round_half_even (q * 100)) / 100)%Q.

Record MetricsRecord : Type := mkMetrics {
  character_error_rate : Q;
  word_error_rate : Q;
  character_accuracy : Q;
  word_accuracy : Q;
  levenshtein_distance : nat;
  ground_truth_length : nat;
  predicted_length : nat;
  ground_truth_word_count : nat;
  predicted_word_count : nat
}.

Definition get_detailed_metrics (ground_truth predicted : text) : MetricsRecord :=
  let cer := calculate_cer ground_truth predicted in
  let wer := calculate_wer ground_truth predicted in
  let accuracy := calculate_accuracy ground_truth predicted in
  let word_accuracy := calculate_word_accuracy ground_truth predicted in
  let levenshtein := calculate_levenshtein_distance ground_truth predicted in
  mkMetrics (round2 (cer * 100)) (round2 (wer * 100)) (round2 accuracy)
    (round2 word_accuracy) levenshtein (length ground_truth)
    (length predicted) (length (split ground_truth))
    (length (split predicted)).

End AccuracyMetrics.

(** ** accuracy_metrics.py: compare_engines *)

Module EngineRanker.
Import Characters AccuracyMetrics.

(** An engine result is a dictionary; each key the function reads or
    writes is an optional field ([None]: the key is absent), with the type
    of the values that [multi_ocr.py] stores under it.  [r_other] holds
    the remaining keys, which the function only carries along. *)
Record EngineResult : Type := mkResult {
  r_engine : option text;                     (* 'engine' *)
  r_text : option text;                       (* 'text' *)
  r_success : option bool;                    (* 'success' *)
  r_error : option text;                      (* 'error' *)
  r_accuracy_metrics : option MetricsRecord;  (* 'accuracy_metrics' *)
  r_other : list (text * text)
}.

(** [result.get('success', True)] *)
Definition get_success (result : EngineResult) : bool :=
  match r_success result with Some b => b | None => true end.

(** [result.copy()] followed by [result_copy['accuracy_metrics'] = metrics] *)
Definition with_metrics (result : EngineResult) (metrics : MetricsRecord)
    : EngineResult :=
  mkResult (r_engine result) (r_text result) (r_success result)
    (r_error result) (Some metrics) (r_other result).

(** The body of the loop: what is appended for one result. *)
Definition score_result (ground_truth : text) (result : EngineResult)
    : EngineResult :=
  match get_success result, r_text result with
  | true, Some t => with_metrics result (get_detailed_metrics ground_truth t)
  | _, _ => result
  end.

(** The sort key:
    [x.get('accuracy_metrics', {}).get('character_accuracy', 0)] *)
Definition sort_key (x : EngineResult) : Q :=
  match r_accuracy_metrics x with
  | Some metrics => character_accuracy metrics
  | None => 0
  end.

(** [list.sort(key=..., reverse=True)]: the stable sort by descending
    key, which is unique; it is computed here by insertion, an element
    passing only those of a strictly greater key. *)
Fixpoint insert_descending {A : Type} (key : A -> Q) (x : A) (l : list A)
    : list A :=
  match l with
  | [] => [x]
  | y :: l' =>
      if Qle_bool (key y) (key x) then x :: l
      else y :: insert_descending key x l'
  end.

Definition sort_descending {A : Type} (key : A -> Q) (l : list A) : list A :=
  fold_right (insert_descending key) [] l.

Definition compare_engines (ground_truth : text)
    (engine_results : list EngineResult) : list EngineResult :=
  let results_with_metrics := map (score_result ground_truth) engine_results in
  sort_descending sort_key results_with_metrics.

(** The condition of the specification for attaching metrics: the flag
    [success] is true and the text is not empty. *)
Definition success_and_text (result : EngineResult) : bool :=
  match r_success result, r_text result with
  | Some true, Some (_ :: _) => true
  | _, _ => false
  end.

(** The condition of the source: the flag is true or absent, and the key
    ['text'] is present. *)
Definition scored (result : EngineResult) : bool :=
  match get_success result, r_text result with
  | true, Some _ => true
  | _, _ => false
  end.

(** A failed result: the flag [success] is present and false. *)
Definition failed (result : EngineResult) : bool :=
  match r_success result with Some false => true | _ => false end.

(** Results as the engines of [multi_ocr.py] build them: a failure, a
    success whose text is wrong in every character of the reference "a",
    a success with an empty text, and a result without the flag. *)
Definition failed_result : EngineResult :=
  mkResult (Some (str "Tesseract")) (Some []) (Some false)
    (Some (str "not installed")) None [].

Definition wrong_result : EngineResult :=
  mkResult (Some (str "EasyOCR")) (Some (str "b")) (Some true) None None [].

Definition blank_result : EngineResult :=
  mkResult (Some (str "Tesseract")) (Some []) (Some true) None None [].

Definition unflagged_result : EngineResult :=
  mkResult (Some (str "TrOCR")) (Some (str "b")) None None None [].

(** [x] stands somewhere before [y] in [l]. *)
Definition before_in {A : Type} (x y : A) (l : list A) : Prop :=
  exists l1 l2 l3, l = l1 ++ x :: l2 ++ y :: l3.

End EngineRanker.

(** ** text_recognizer.py: the recognition cache *)

Module TextRecognizer.
Import Characters SmartCorrection.

(** [_text_cache]: a dictionary, whose keys are kept in the order of their
    insertion. *)
Definition cache : Type := list (text * text).

Definition dict_get (k : text) (c : cache) : option text :=
  match find (fun kv => text_eqb (fst kv) k) c with
  | Some kv => Some (snd kv)
  | None => None
  end.

(** [k in d] *)
Definition dict_contains (k : text) (c : cache) : bool :=
  existsb (fun kv => text_eqb (fst kv) k) c.

(** [d[k] = v]: a present key keeps its place, a new one comes last. *)
Fixpoint dict_set (k v : text) (c : cache) : cache :=
  match c with
  | [] => [(k, v)]
  | (k', v') :: c' =>
      if text_eqb k' k then (k, v) :: c' else (k', v') :: dict_set k v c'
  end.

(** [del d[k]] *)
Fixpoint dict_del (k : text) (c : cache) : cache :=
  match c with
  | [] => []
  | (k', v') :: c' => if text_eqb k' k then c' else (k', v') :: dict_del k c'
  end.

(** The three statements that store a result:
    [_text_cache[image_hash] = result], then the eviction of
    [next(iter(_text_cache))] when more than 100 entries are held. *)
Definition cache_store (image_hash result : text) (c : cache) : cache :=
  let c := dict_set image_hash result c in
  if 100 <? length c then
    match c with
    | (oldest_key, _) :: _ => dict_del oldest_key c
    | [] => c
    end
  else c.

(** [recognize_text] from the hash of the image on, on the path without
    exception; [generated_text] is the output of the model, which is run
    only when the hash is not in the cache.  The result is the returned
    text and the cache afterwards. *)
Definition recognize_text (image_hash generated_text : text) (c : cache)
    : text * cache :=
  if dict_contains image_hash c then
    (match dict_get image_hash c with Some v => v | None => [] end, c)
  else
    let raw_text := strip generated_text in
    let result := best_result (smart_correct raw_text) in
    (result, cache_store image_hash result c).

(** The cache after a sequence of calls, from the first one on. *)
Definition run_requests (requests : list (text * text)) (c : cache) : cache :=
  fold_left (fun c req => snd (recognize_text (fst req) (snd req) c))
    requests c.

Definition keys (c : cache) : list text := map fst c.

(** The entry that a call stores when the hash of its image is new. *)
Definition cache_entry (req : text * text) : text * text :=
  (fst req, best_result (smart_correct (strip (snd req)))).

(** A sequence of 101 calls on images of pairwise distinct hashes. *)
Definition hundred_and_one_requests : list (text * text) :=
  map (fun n => ([ascii_of_nat n], str "Hello")) (seq 0 101).

End TextRecognizer.

(** ** The edit distance of two sequences

    The recurrence of the specification, on the first elements of both
    sequences, for any type of elements with an equality test. *)

Module EditDistance.

Section Generic.
Context {A : Type} (eqb : A -> A -> bool).

Definition differ (x y : A) : nat := if eqb x y then 0 else 1.

Fixpoint distance (a b : list A) {struct a} : nat :=
  match a with
  | [] => length b
  | x :: a' =>
      (fix against (b : list A) : nat :=
         match b with
         | [] => S (length a')
         | y :: b' =>
             min3 (distance a' b + 1) (against b' + 1)
                  (distance a' b' + differ x y)
         end) b
  end.

End Generic.

End EditDistance.

(** ** web_app.py: allowed_file *)

Module WebApp.
Import Characters.

(** [ALLOWED_EXTENSIONS], a set. *)
Definition ALLOWED_EXTENSIONS : list text :=
  [str "png"; str "jpg"; str "jpeg"; str "gif"; str "bmp"; str "tiff";
   str "webp"].

(** [x in s] for a set of strings. *)
Definition set_contains (s : list text) (x : text) : bool :=
  existsb (text_eqb x) s.

(** ['.' in filename] *)
Definition has_dot (filename : text) : bool :=
  existsb (Ascii.eqb "."%char) filename.

(** [filename.rsplit('.', 1)] when the name has a dot: the parts before
    and after the last dot; [None] when it has none. *)
Fixpoint rsplit_dot (filename : text) : option (text * text) :=
  match filename with
  | [] => None
  | c :: rest =>
      match rsplit_dot rest with
      | Some (head, tail) => Some (c :: head, tail)
      | None => if Ascii.eqb c "."%char then Some ([], rest) else None
      end
  end.

(** [filename.rsplit('.', 1)[1]]; without a dot the list has one element
    and the index is out of range, which the test before it excludes. *)
Definition extension (filename : text) : text :=
  match rsplit_dot filename with
  | Some (_, tail) => tail
  | None => []
  end.

Definition allowed_file (filename : text) : bool :=
  has_dot filename && set_contains ALLOWED_EXTENSIONS (lower (extension filename)).

End WebApp.

(** ** multi_ocr.py: ocr_trocr *)

Module MultiOcr.
Import Characters SmartCorrection TextRecognizer.

(** The keys ['text_raw'] and ['text'] of the result of [ocr_trocr] when
    no exception is raised: the text that [recognize_text] returns, and
    that text corrected once more. *)
Definition ocr_trocr_texts (image_hash generated_text : text) (c : cache)
    : text * text :=
  let text_raw := fst (recognize_text image_hash generated_text c) in
  let corrected := smart_correct text_raw in
  (text_raw, best_result corrected).

End MultiOcr.

(** ** Further engine results *)

Module RankingExamples.
Import EngineRanker.

(** A success whose text is the reference "a" itself. *)
Definition right_result : EngineResult :=
  mkResult (Some (str "TrOCR")) (Some (str "a")) (Some true) None None [].

End RankingExamples.

(** ** A full cache *)

Module CacheExamples.
Import TextRecognizer.

(** The cache after the first hundred of the 101 calls. *)
Definition full_cache : cache :=
  run_requests (firstn 100 hundred_and_one_requests) [].

End CacheExamples.

(** ** White space: what [normalize_text] computes *)

Module WhiteSpace.
Import Characters.

(** The length of the run of characters of the class [p] that [t] starts
    with. *)
Fixpoint run_length (p : ascii -> bool) (t : text) : nat :=
  match t with
  | c :: t' => if p c then S (run_length p t') else 0
  | [] => 0
  end.

(** Every run of white space replaced by one space; [in_run] tells that
    the character before [t] was white space. *)
Fixpoint collapse_spaces (in_run : bool) (t : text) : text :=
  match t with
  | [] => []
  | c :: t' =>
      if isspace c
      then (if in_run then collapse_spaces true t'
            else " "%char :: collapse_spaces true t')
      else c :: collapse_spaces false t'
  end.

(** [' '.join(words)] *)
Fixpoint join (words : list text) : text :=
  match words with
  | [] => []
  | [w] => w
  | w :: rest => w ++ " "%char :: join rest
  end.

(** Every white space character of [t] is a space and follows a
    character that is not white space; [after_space] tells that the
    character before [t] was white space. *)
Fixpoint single_spaced (after_space : bool) (t : text) : bool :=
  match t with
  | [] => true
  | c :: t' =>
      if isspace c
      then Ascii.eqb c " "%char && negb after_space && single_spaced true t'
      else single_spaced false t'
  end.

(** [t] is made of words separated by one space each and ends with a
    word; [in_word] tells that the character before [t] belongs to a
    word. *)
Fixpoint spaced_words (in_word : bool) (t : text) : bool :=
  match t with
  | [] => in_word
  | c :: t' =>
      if isspace c
      then Ascii.eqb c " "%char && in_word && spaced_words false t'
      else spaced_words true t'
  end.

End WhiteSpace.

(** ** Texts on which no correction rule can fire *)

Module PlainText.
Import Characters Re SmartCorrection.

(** A character that is no capital letter of [[A-Z]] and none of the
    letters r, n and v. *)
Definition plain (c : ascii) : bool :=
  negb (is_AZ c || Ascii.eqb c "r"%char || Ascii.eqb c "n"%char
        || Ascii.eqb c "v"%char).

Definition plain_text (t : text) : bool := forallb plain t.

(** The position of a cursor in a plain text. *)
Definition plain_cursor (prev : option ascii) (rest : text) : Prop :=
  match prev with Some c => plain c = true | None => True end /\
  plain_text rest = true.

(** All the patterns of the module. *)
Definition ALL_PATTERNS : list regex :=
  [PATTERN_RM; PATTERN_RM_UPPER; PATTERN_RM_AFTER; PATTERN_RM_STANDALONE;
   PATTERN_RN_STANDALONE; PATTERN_RN_BETWEEN; PATTERN_RN_END;
   PATTERN_NN_BETWEEN; PATTERN_NN_STANDALONE; PATTERN_SHORT_WORDS]
  ++ map fst CHAR_REPLACEMENTS.

End PlainText.

(** ** The spans of the matches *)

Module Spans.
Import Characters Re.

(** The least number of characters that a match of the pattern covers. *)
Fixpoint min_len (r : regex) : nat :=
  match r with
  | Lit _ => 1
  | Class _ => 1
  | Boundary => 0
  | Ahead _ => 0
  | Behind _ => 0
  | Repeat _ lo _ => lo
  | Group r' => min_len r'
  | Cat r1 r2 => min_len r1 + min_len r2
  end.

(** The matches lie in the text of length [n], from [lo] on, one after
    the other, and each covers [k] characters at least. *)
Fixpoint spans_ok (k lo n : nat) (ms : list rmatch) : Prop :=
  match ms with
  | [] => True
  | m :: ms' =>
      lo <= m_start m /\ m_start m + k <= m_end m /\ m_end m <= n /\
      spans_ok k (m_end m) n ms'
  end.

End Spans.

(** ** Texts with code points above 255

    [str.lower] is not a map on characters: a capital sigma becomes the
    final small sigma at the end of a word and the small sigma elsewhere.
    The texts of this module are made of the code points below 256 and of
    five Greek letters.  [lower_u] is [str.lower] on them; the functions
    that follow are those of [accuracy_metrics.py] once more, on these
    texts, each under the name of the source with the suffix [_u]. *)

Module Unicode.
Import Characters AccuracyMetrics.

Inductive uchar : Type :=
| Latin1 (c : ascii)   (* a code point below 256 *)
| CapitalAlpha         (* U+0391 *)
| CapitalSigma         (* U+03A3 *)
| SmallAlpha           (* U+03B1 *)
| FinalSigma           (* U+03C2 *)
| SmallSigma.          (* U+03C3 *)

Abbreviation utext := (list uchar).

Definition uchar_eqb (x y : uchar) : bool :=
  match x, y with
  | Latin1 a, Latin1 b => Ascii.eqb a b
  | CapitalAlpha, CapitalAlpha => true
  | CapitalSigma, CapitalSigma => true
  | SmallAlpha, SmallAlpha => true
  | FinalSigma, FinalSigma => true
  | SmallSigma, SmallSigma => true
  | _, _ => false
  end.

(** Equality of texts, [==] on [str]. *)
Fixpoint text_eqb_u (a b : utext) : bool :=
  match a, b with
  | [], [] => true
  | x :: a', y :: b' => uchar_eqb x y && text_eqb_u a' b'
  | _, _ => false
  end.

(** [str.isspace]: no Greek letter is white space. *)
Definition isspace_u (c : uchar) : bool :=
  match c with Latin1 a => Characters.isspace a | _ => false end.

(** The characters with the property Case_Ignorable: the apostrophe, the
    full stop, the colon, the circumflex, the grave accent, the diaeresis,
    the soft hyphen, the macron, the acute accent, the middle dot and the
    cedilla. *)
Definition is_case_ignorable (c : uchar) : bool :=
  match c with
  | Latin1 a =>
      (code a =? 39) || (code a =? 46) || (code a =? 58) || (code a =? 94)
      || (code a =? 96) || (code a =? 168) || (code a =? 173)
      || (code a =? 175) || (code a =? 180) || in_range 183 184 a
  | _ => false
  end.

(** The characters with the property Cased: the letters of ASCII and of
    Latin-1, the ordinal indicators, the micro sign; every Greek letter. *)
Definition is_cased (c : uchar) : bool :=
  match c with
  | Latin1 a =>
      in_range 65 90 a || in_range 97 122 a || (code a =? 170)
      || (code a =? 181) || (code a =? 186) || in_range 192 214 a
      || in_range 216 246 a || in_range 248 255 a
  | _ => true
  end.

(** The lower-case mapping of one character, the capital sigma taken
    outside the final position. *)
Definition lower_char_u (c : uchar) : uchar :=
  match c with
  | Latin1 a => Latin1 (Characters.lower_char a)
  | CapitalAlpha => SmallAlpha
  | CapitalSigma => SmallSigma
  | other => other
  end.

(** The nearest character of [t] that is not case-ignorable exists and is
    cased. *)
Fixpoint cased_next (t : utext) : bool :=
  match t with
  | [] => false
  | c :: t' => if is_case_ignorable c then cased_next t' else is_cased c
  end.

(** [str.lower]; [before] holds the characters already read, the nearest
    first.  A capital sigma is in the final position when a cased letter
    comes before it and none comes after it, case-ignorable characters
    being passed over on both sides. *)
Fixpoint lower_from_u (before : utext) (t : utext) : utext :=
  match t with
  | [] => []
  | c :: t' =>
      (match c with
       | CapitalSigma =>
           if cased_next before && negb (cased_next t')
           then FinalSigma else SmallSigma
       | _ => lower_char_u c
       end) :: lower_from_u (c :: before) t'
  end.

Definition lower_u (t : utext) : utext := lower_from_u [] t.

(** [re.sub(r'\s+', ' ', text)]: every run of white space replaced by one
    space; [in_run] tells that the character before [t] was white space. *)
Fixpoint sub_spaces_u (in_run : bool) (t : utext) : utext :=
  match t with
  | [] => []
  | c :: t' =>
      if isspace_u c
      then (if in_run then sub_spaces_u true t'
            else Latin1 " "%char :: sub_spaces_u true t')
      else c :: sub_spaces_u false t'
  end.

(** [str.strip()] *)
Fixpoint lstrip_u (t : utext) : utext :=
  match t with
  | c :: t' => if isspace_u c then lstrip_u t' else t
  | [] => []
  end.

Definition strip_u (t : utext) : utext := rev (lstrip_u (rev (lstrip_u t))).

(** [str.split()] without argument. *)
Fixpoint split_from_u (word : utext) (t : utext) : list utext :=
  match t with
  | [] => if is_empty word then [] else [word]
  | c :: t' =>
      if isspace_u c
      then (if is_empty word then split_from_u [] t'
            else word :: split_from_u [] t')
      else split_from_u (word ++ [c]) t'
  end.

Definition split_u (t : utext) : list utext := split_from_u [] t.

Definition normalize_text_u (t : utext) : utext :=
  let t := lower_u t in
  let t := sub_spaces_u false t in
  strip_u t.

(** [sum(1 for gt, pred in zip(gt_words, pred_words) if gt == pred)] *)
Definition correct_words_u (gt_words pred_words : list utext) : nat :=
  length (filter (fun gp => text_eqb_u (fst gp) (snd gp))
            (combine gt_words pred_words)).

Definition calculate_word_accuracy_u (ground_truth predicted : utext) : Q :=
  let gt_words := split_u (normalize_text_u ground_truth) in
  let pred_words := split_u (normalize_text_u predicted) in
  if is_empty gt_words then
    (if is_empty pred_words then 100 else 0)%Q
  else
    (Qnat (correct_words_u gt_words pred_words) / Qlen gt_words * 100)%Q.

(** The body of the two nested loops of [calculate_wer]. *)
Definition wer_cell_u (gt_words pred_words : list utext) (i : nat)
    (dp : list (list nat)) (j : nat) : list (list nat) :=
  if text_eqb_u (nth (i - 1) gt_words []) (nth (j - 1) pred_words [])
  then set2 dp i j (get2 dp (i - 1) (j - 1))
  else set2 dp i j
         (1 + min3 (get2 dp (i - 1) j) (get2 dp i (j - 1))
                   (get2 dp (i - 1) (j - 1))).

Definition wer_table_u (gt_words pred_words : list utext) : list (list nat) :=
  let m := length gt_words in
  let n := length pred_words in
  let dp := repeat (repeat 0 (n + 1)) (m + 1) in
  let dp := fold_left (fun dp i => set2 dp i 0 i) (seq 0 (m + 1)) dp in
  let dp := fold_left (fun dp j => set2 dp 0 j j) (seq 0 (n + 1)) dp in
  fold_left
    (fun dp i => fold_left (wer_cell_u gt_words pred_words i) (seq 1 n) dp)
    (seq 1 m) dp.

Definition calculate_wer_u (ground_truth predicted : utext) : Q :=
  let gt_words := split_u (normalize_text_u ground_truth) in
  let pred_words := split_u (normalize_text_u predicted) in
  if is_empty gt_words then
    (if is_empty pred_words then 0 else 1)%Q
  else
    let m := length gt_words in
    let n := length pred_words in
    let word_distance := get2 (wer_table_u gt_words pred_words) m n in
    let wer := (Qnat word_distance / Qlen gt_words)%Q in
    Qmin wer 1.

(** Two texts that differ only in letter case: the same length, and at
    each index the same letter in either case. *)
Definition same_up_to_case_u (a b : utext) : Prop :=
  Forall2 (fun x y => lower_char_u x = lower_char_u y) a b.

(** A text of code points below 256. *)
Definition of_latin1 (t : text) : utext := map Latin1 t.

(** The capital alpha followed by the capital sigma, and the same two
    letters in small: U+0391 U+03A3 and U+03B1 U+03C3. *)
Definition capital_alpha_sigma : utext := [CapitalAlpha; CapitalSigma].
Definition small_alpha_sigma : utext := [SmallAlpha; SmallSigma].

End Unicode.

(** * Properties *)

Module LevenshteinFacts.
Import Levenshtein.

Lemma neq_cost_refl c : neq_cost c c = 0.
Proof. unfold neq_cost. now rewrite Ascii.eqb_refl. Qed.

Lemma neq_cost_sym c d : neq_cost c d = neq_cost d c.
Proof. unfold neq_cost. now rewrite Ascii.eqb_sym. Qed.

Lemma neq_cost_zero c d : neq_cost c d = 0 -> c = d.
Proof.
  unfold neq_cost. destruct (Ascii.eqb c d) eqn:E; [|discriminate].
  intros _. now apply Ascii.eqb_eq.
Qed.

Lemma edit_distance_nil_l b : edit_distance [] b = length b.
Proof. reflexivity. Qed.

Lemma edit_distance_nil_r a : edit_distance a [] = length a.
Proof. destruct a; reflexivity. Qed.

Lemma edit_distance_cons x a y b :
  edit_distance (x :: a) (y :: b) =
  min3 (edit_distance a (y :: b) + 1) (edit_distance (x :: a) b + 1)
       (edit_distance a b + neq_cost x y).
Proof. reflexivity. Qed.

Lemma edit_distance_sym a : forall b, edit_distance a b = edit_distance b a.
Proof.
  induction a as [|x a IHa]; intros b.
  - now rewrite edit_distance_nil_r.
  - induction b as [|y b IHb].
    + reflexivity.
    + rewrite !edit_distance_cons, IHb, (IHa (y :: b)), (IHa b), neq_cost_sym.
      unfold min3. lia.
Qed.

Lemma edit_distance_refl a : edit_distance a a = 0.
Proof.
  induction a as [|x a IH]; [reflexivity|].
  rewrite edit_distance_cons, IH, neq_cost_refl. unfold min3. lia.
Qed.

(** A distance of zero is reached by equal words only. *)
Lemma edit_distance_zero a : forall b, edit_distance a b = 0 -> a = b.
Proof.
  induction a as [|x a IHa]; intros b.
  - simpl. destruct b; [reflexivity|discriminate].
  - destruct b as [|y b]; [discriminate|].
    rewrite edit_distance_cons. unfold min3. intros H.
    assert (H0 : edit_distance a b + neq_cost x y = 0) by lia.
    assert (Hc : neq_cost x y = 0) by lia.
    apply neq_cost_zero in Hc. subst y.
    f_equal. apply IHa. lia.
Qed.

(** *** The rolling rows compute the table of [edit_distance] *)

#[local] Arguments edit_distance : simpl never.

Lemma firstn_app_exact {A : Type} (l r : list A) :
  firstn (length l) (l ++ r) = l.
Proof.
  rewrite firstn_app, Nat.sub_diag, firstn_all. simpl. apply app_nil_r.
Qed.

Lemma firstn_snoc {A : Type} (l r : list A) (x : A) :
  firstn (length l + 1) (l ++ x :: r) = l ++ [x].
Proof.
  replace (l ++ x :: r) with ((l ++ [x]) ++ r) by now rewrite <- app_assoc.
  replace (length l + 1) with (length (l ++ [x])) by (rewrite length_app; simpl; lia).
  apply firstn_app_exact.
Qed.

Lemma nth_row_of p s2 j :
  j <= length s2 ->
  nth j (row_of p s2) 0 = edit_distance p (rev (firstn j s2)).
Proof.
  intros Hj. unfold row_of.
  rewrite (nth_indep _ 0 (edit_distance p (rev (firstn 0 s2))))
    by (rewrite length_map, length_seq; lia).
  rewrite (map_nth (fun j => edit_distance p (rev (firstn j s2)))).
  rewrite seq_nth by lia. reflexivity.
Qed.

Lemma nth_partial_row p s2 k j :
  j <= k ->
  nth j (partial_row p s2 k) 0 = edit_distance p (rev (firstn j s2)).
Proof.
  intros Hj. unfold partial_row.
  rewrite (nth_indep _ 0 (edit_distance p (rev (firstn 0 s2))))
    by (rewrite length_map, length_seq; lia).
  rewrite (map_nth (fun j => edit_distance p (rev (firstn j s2)))).
  rewrite seq_nth by lia. reflexivity.
Qed.

Lemma partial_row_succ p s2 k :
  partial_row p s2 (k + 1) =
  partial_row p s2 k ++ [edit_distance p (rev (firstn (k + 1) s2))].
Proof.
  unfold partial_row.
  replace (k + 1 + 1) with (S (k + 1)) by lia.
  rewrite seq_S, map_app. reflexivity.
Qed.

Lemma inner_loop_invariant p c1 rest :
  forall done,
    fold_left
      (fun current_row (jc : nat * ascii) =>
         let (j, c2) := jc in
         let insertions := nth (j + 1) (row_of p (done ++ rest)) 0 + 1 in
         let deletions := nth j current_row 0 + 1 in
         let substitutions :=
           nth j (row_of p (done ++ rest)) 0 + neq_cost c1 c2 in
         current_row ++ [min3 insertions deletions substitutions])
      (enumerate_from (length done) rest)
      (partial_row (c1 :: p) (done ++ rest) (length done))
    = row_of (c1 :: p) (done ++ rest).
Proof.
  induction rest as [|c2 rest IH]; intros done.
  - simpl. unfold partial_row, row_of. rewrite app_nil_r. reflexivity.
  - unfold enumerate_from. simpl combine. simpl fold_left.
    assert (Hlen : length (done ++ c2 :: rest) = length done + S (length rest))
      by (rewrite length_app; reflexivity).
    rewrite !nth_row_of by lia.
    rewrite nth_partial_row by lia.
    rewrite firstn_snoc, firstn_app_exact, rev_app_distr. simpl rev. simpl app.
    specialize (IH (done ++ [c2])).
    replace ((done ++ [c2]) ++ rest) with (done ++ c2 :: rest) in IH
      by now rewrite <- app_assoc.
    replace (length (done ++ [c2])) with (length done + 1) in IH
      by (rewrite length_app; simpl; lia).
    rewrite partial_row_succ in IH.
    rewrite firstn_snoc, rev_app_distr in IH. simpl rev in IH. simpl app in IH.
    rewrite edit_distance_cons in IH.
    unfold enumerate_from in IH.
    replace (S (length done)) with (length done + 1) by lia.
    exact IH.
Qed.

Lemma levenshtein_row_spec p c1 s2 :
  levenshtein_row (length p) c1 s2 (row_of p s2) = row_of (c1 :: p) s2.
Proof.
  unfold levenshtein_row, enumerate.
  replace [length p + 1] with (partial_row (c1 :: p) ([] ++ s2) (length (@nil ascii))).
  - apply (inner_loop_invariant p c1 s2 []).
  - unfold partial_row. simpl. rewrite edit_distance_nil_r. simpl. f_equal. lia.
Qed.

Lemma row_of_nil s2 : row_of [] s2 = seq 0 (length s2 + 1).
Proof.
  unfold row_of. rewrite <- (map_id (seq 0 (length s2 + 1))) at 2.
  apply map_ext_in. intros j Hj. apply in_seq in Hj.
  rewrite edit_distance_nil_l, length_rev, length_firstn. lia.
Qed.

Lemma outer_loop_invariant s2 rest :
  forall done,
    fold_left
      (fun previous_row (ic : nat * ascii) =>
         let (i, c1) := ic in levenshtein_row i c1 s2 previous_row)
      (enumerate_from (length done) rest) (row_of (rev done) s2)
    = row_of (rev (done ++ rest)) s2.
Proof.
  induction rest as [|c1 rest IH]; intros done.
  - simpl. now rewrite app_nil_r.
  - unfold enumerate_from. simpl combine. simpl fold_left.
    rewrite <- (length_rev done), levenshtein_row_spec.
    specialize (IH (done ++ [c1])).
    rewrite rev_app_distr in IH. simpl in IH.
    rewrite <- app_assoc in IH. simpl in IH.
    rewrite length_app in IH. simpl in IH.
    rewrite length_rev. unfold enumerate_from in IH.
    replace (S (length done)) with (length done + 1) by lia.
    exact IH.
Qed.

Lemma levenshtein_rows_spec s1 s2 :
  levenshtein_rows s1 s2 = row_of (rev s1) s2.
Proof.
  unfold levenshtein_rows, enumerate.
  rewrite <- row_of_nil. apply (outer_loop_invariant s2 s1 []).
Qed.

Lemma last_row_of p s2 : last (row_of p s2) 0 = edit_distance p (rev s2).
Proof.
  unfold row_of. replace (length s2 + 1) with (S (length s2)) by lia.
  rewrite seq_S, map_app. simpl. rewrite last_last, firstn_all. reflexivity.
Qed.

Lemma levenshtein_ordered_spec s1 s2 :
  levenshtein_ordered s1 s2 = edit_distance (rev s1) (rev s2).
Proof.
  unfold levenshtein_ordered. destruct (length s2 =? 0) eqn:E.
  - apply Nat.eqb_eq in E. apply length_zero_iff_nil in E. subst s2.
    simpl. now rewrite edit_distance_nil_r, length_rev.
  - now rewrite levenshtein_rows_spec, last_row_of.
Qed.

(** The function computes the edit distance of its arguments, whichever
    of them is longer. *)
Lemma calculate_levenshtein_distance_spec s1 s2 :
  calculate_levenshtein_distance s1 s2 = edit_distance (rev s1) (rev s2).
Proof.
  unfold calculate_levenshtein_distance.
  destruct (length s1 <? length s2); rewrite levenshtein_ordered_spec.
  - apply edit_distance_sym.
  - reflexivity.
Qed.

End LevenshteinFacts.

Module TableFacts.
Import Characters AccuracyMetrics.

Lemma text_eqb_eq a : forall b, text_eqb a b = true <-> a = b.
Proof.
  induction a as [|x a IH]; intros [|y b]; simpl; split; try easy.
  - intros H. apply andb_prop in H. destruct H as [Hx Hab].
    apply Ascii.eqb_eq in Hx. apply IH in Hab. now subst.
  - intros H. injection H as -> ->. rewrite Ascii.eqb_refl. now apply IH.
Qed.

Lemma text_eqb_refl a : text_eqb a a = true.
Proof. now apply text_eqb_eq. Qed.

(** A loop [for k in range(a, a + n)] keeps an invariant indexed by [k]. *)
Lemma for_loop_invariant {St : Type} (P : nat -> St -> Prop)
    (f : St -> nat -> St) n :
  forall a s,
    P a s ->
    (forall k s', a <= k < a + n -> P k s' -> P (S k) (f s' k)) ->
    P (a + n) (fold_left f (seq a n) s).
Proof.
  induction n as [|n IH]; intros a s Ha Hstep.
  - now rewrite Nat.add_0_r.
  - simpl. replace (a + S n) with (S a + n) by lia.
    apply IH.
    + apply Hstep; [lia | exact Ha].
    + intros k s' Hk. apply Hstep. lia.
Qed.

Lemma length_set_nth {A : Type} (v : A) l : forall i, length (set_nth i v l) = length l.
Proof.
  induction l as [|x l IH]; intros [|i]; simpl; auto.
Qed.

Lemma nth_set_nth_eq {A : Type} (v d : A) l :
  forall i, i < length l -> nth i (set_nth i v l) d = v.
Proof.
  induction l as [|x l IH]; intros [|i] Hi; simpl in *; try lia; auto.
  apply IH. lia.
Qed.

Lemma nth_set_nth_neq {A : Type} (v d : A) l :
  forall i j, i <> j -> nth j (set_nth i v l) d = nth j l d.
Proof.
  induction l as [|x l IH]; intros [|i] [|j] Hij; simpl; auto; try lia.
Qed.

Lemma set_nth_beyond {A : Type} (v : A) l :
  forall i, length l <= i -> set_nth i v l = l.
Proof.
  induction l as [|x l IH]; intros [|i] Hi; simpl in *; auto; try lia.
  f_equal. apply IH. lia.
Qed.

Lemma get2_set2_eq dp i j v :
  i < length dp -> j < length (nth i dp []) -> get2 (set2 dp i j v) i j = v.
Proof.
  intros Hi Hj. unfold get2, set2.
  rewrite nth_set_nth_eq by assumption. now apply nth_set_nth_eq.
Qed.

Lemma get2_set2_neq dp i j v i' j' :
  i <> i' \/ j <> j' -> get2 (set2 dp i j v) i' j' = get2 dp i' j'.
Proof.
  intros H. unfold get2, set2.
  destruct (Nat.eq_dec i i') as [<-|Hne].
  - destruct H as [H|H]; [congruence|].
    destruct (Nat.lt_ge_cases i (length dp)) as [Hi|Hi].
    + rewrite nth_set_nth_eq by assumption. now apply nth_set_nth_neq.
    + now rewrite set_nth_beyond.
  - now rewrite nth_set_nth_neq.
Qed.

Section Table.
Variables gt_words pred_words : list text.
Let m := length gt_words.
Let n := length pred_words.

Let shaped := shaped m n.
Let filled_with := filled_with gt_words pred_words.

Lemma shaped_set2 dp i j v : shaped dp -> shaped (set2 dp i j v).
Proof.
  intros [Hrows Hcols]. unfold set2. split.
  - now rewrite length_set_nth.
  - intros i' Hi'. destruct (Nat.eq_dec i i') as [<-|Hne].
    + rewrite nth_set_nth_eq by lia. rewrite length_set_nth. now apply Hcols.
    + rewrite nth_set_nth_neq by assumption. now apply Hcols.
Qed.

Lemma filled_with_set2 (F G : nat -> nat -> Prop) dp i j :
  filled_with F dp -> i <= m -> j <= n ->
  (forall i' j', G i' j' -> F i' j' \/ (i' = i /\ j' = j)) ->
  filled_with G (set2 dp i j (wer_cell_spec gt_words pred_words i j)).
Proof.
  intros [Hshape Hval] Hi Hj HG. split.
  - now apply shaped_set2.
  - intros i' j' Hi' Hj' HGij.
    destruct (Nat.eq_dec i i') as [<-|Hne].
    + destruct (Nat.eq_dec j j') as [<-|Hnej].
      * destruct Hshape as [Hrows Hcols].
        apply get2_set2_eq; [lia | rewrite Hcols; lia].
      * rewrite get2_set2_neq by auto.
        destruct (HG _ _ HGij) as [HF|[_ ?]]; [now apply Hval | lia].
    + rewrite get2_set2_neq by auto.
      destruct (HG _ _ HGij) as [HF|[? _]]; [now apply Hval | lia].
Qed.

Lemma shaped_zeros : shaped (repeat (repeat 0 (n + 1)) (m + 1)).
Proof.
  split.
  - apply repeat_length.
  - intros i Hi. rewrite nth_repeat_lt by lia. apply repeat_length.
Qed.

Lemma wer_cell_spec_col0 i : i <= m -> wer_cell_spec gt_words pred_words i 0 = i.
Proof.
  intros Hi. unfold wer_cell_spec. simpl.
  destruct (rev (firstn i gt_words)) eqn:E.
  - apply (f_equal (@length _)) in E.
    rewrite length_rev, length_firstn in E. simpl in *. fold m in E. lia.
  - apply (f_equal (@length _)) in E.
    rewrite length_rev, length_firstn in E. simpl in *. fold m in E. lia.
Qed.

Lemma wer_cell_spec_row0 j : j <= n -> wer_cell_spec gt_words pred_words 0 j = j.
Proof.
  intros Hj. unfold wer_cell_spec. simpl.
  rewrite length_rev, length_firstn. fold n. lia.
Qed.

Lemma firstn_succ_nth {A : Type} (d : A) (l : list A) i :
  i < length l -> firstn (S i) l = firstn i l ++ [nth i l d].
Proof.
  revert i. induction l as [|x l IH]; intros [|i] Hi; simpl in *; try lia; auto.
  f_equal. apply IH. lia.
Qed.

Lemma wer_cell_spec_succ i j :
  i < m -> j < n ->
  wer_cell_spec gt_words pred_words (S i) (S j) =
  if text_eqb (nth i gt_words []) (nth j pred_words [])
  then wer_cell_spec gt_words pred_words i j
  else 1 + min3 (wer_cell_spec gt_words pred_words i (S j))
                (wer_cell_spec gt_words pred_words (S i) j)
                (wer_cell_spec gt_words pred_words i j).
Proof.
  intros Hi Hj. unfold wer_cell_spec.
  rewrite !(firstn_succ_nth [] gt_words i Hi).
  rewrite !(firstn_succ_nth [] pred_words j Hj).
  rewrite !rev_app_distr. reflexivity.
Qed.

Lemma filled_with_weaken (F G : nat -> nat -> Prop) dp :
  filled_with F dp ->
  (forall i j, i <= m -> j <= n -> G i j -> F i j) ->
  filled_with G dp.
Proof.
  intros [Hshape Hval] HG. split; [exact Hshape|].
  intros i j Hi Hj HGij. apply Hval; auto.
Qed.

Lemma first_column_filled :
  filled_with (fun i j => j = 0 /\ i < 0 + (m + 1))
    (fold_left (fun dp i => set2 dp i 0 i) (seq 0 (m + 1))
       (repeat (repeat 0 (n + 1)) (m + 1))).
Proof.
  apply (for_loop_invariant
           (fun k dp => filled_with (fun i j => j = 0 /\ i < k) dp)).
  - split; [apply shaped_zeros|]. intros i j _ _ [_ Hi]. lia.
  - intros k dp Hk HP.
    rewrite <- (wer_cell_spec_col0 k) at 2 by (fold m; lia).
    apply (filled_with_set2 (fun i j => j = 0 /\ i < k));
      try (fold m n; lia); auto.
Qed.

Lemma first_row_filled dp :
  filled_with (fun i j => j = 0 /\ i < 0 + (m + 1)) dp ->
  filled_with (fun i j => j = 0 \/ (i = 0 /\ j < 0 + (n + 1)))
    (fold_left (fun dp j => set2 dp 0 j j) (seq 0 (n + 1)) dp).
Proof.
  intros Hdp.
  apply (for_loop_invariant
           (fun k dp => filled_with (fun i j => j = 0 \/ (i = 0 /\ j < k)) dp)).
  - apply (filled_with_weaken _ _ _ Hdp). intros i j Hi Hj [H|[_ H]]; lia.
  - intros k dp' Hk HP.
    rewrite <- (wer_cell_spec_row0 k) at 2 by (fold n; lia).
    apply (filled_with_set2 (fun i j => j = 0 \/ (i = 0 /\ j < k)));
      try (fold m n; lia); auto.
Qed.

Lemma row_filled k dp :
  1 <= k <= m ->
  filled_with (fun i j => j = 0 \/ i < k) dp ->
  filled_with (fun i j => j = 0 \/ i < S k)
    (fold_left (wer_cell gt_words pred_words k) (seq 1 n) dp).
Proof.
  intros Hk Hdp.
  apply (filled_with_weaken
           (fun i j => j = 0 \/ i < k \/ (i = k /\ j < 1 + n))).
  - apply (for_loop_invariant
             (fun c dp =>
                filled_with (fun i j => j = 0 \/ i < k \/ (i = k /\ j < c)) dp)).
    + apply (filled_with_weaken _ _ _ Hdp). intros i j Hi Hj H. lia.
    + intros c dp' Hc [Hshape Hval].
      assert (Hspec : wer_cell gt_words pred_words k dp' c =
                      set2 dp' k c (wer_cell_spec gt_words pred_words k c)).
      { unfold wer_cell.
        rewrite !Hval by (fold m n; lia).
        destruct k as [|k0]; [lia|]. destruct c as [|c0]; [lia|].
        rewrite wer_cell_spec_succ by (fold m n; lia).
        simpl Nat.sub. rewrite !Nat.sub_0_r.
        now destruct (text_eqb (nth k0 gt_words []) (nth c0 pred_words [])). }
      rewrite Hspec.
      apply (filled_with_set2
               (fun i j => j = 0 \/ i < k \/ (i = k /\ j < c)));
        try (fold m n; lia).
      now split.
  - intros i j Hi Hj H. fold n in Hj. lia.
Qed.

Lemma wer_table_filled :
  filled_with (fun _ _ => True) (wer_table gt_words pred_words).
Proof.
  unfold wer_table. fold m n.
  apply (filled_with_weaken (fun i j => j = 0 \/ i < 1 + m)).
  - apply (for_loop_invariant
             (fun k dp => filled_with (fun i j => j = 0 \/ i < k) dp)).
    + apply (filled_with_weaken _ _ _ (first_row_filled _ first_column_filled)).
      intros i j Hi Hj H. fold n in Hj. lia.
    + intros k dp Hk HP. apply row_filled; [lia | exact HP].
  - intros i j Hi Hj _. fold m in Hi. lia.
Qed.

(** The cell that [calculate_wer] reads holds the distance of the two
    word lists. *)
Lemma wer_table_result :
  get2 (wer_table gt_words pred_words) m n =
  word_distance (rev gt_words) (rev pred_words).
Proof.
  destruct wer_table_filled as [_ Hval].
  rewrite Hval by (fold m n; auto).
  unfold wer_cell_spec, m, n. now rewrite !firstn_all.
Qed.

End Table.

Lemma word_distance_refl l : word_distance l l = 0.
Proof.
  induction l as [|x l IH]; [reflexivity|].
  simpl. now rewrite text_eqb_refl.
Qed.

End TableFacts.

Module MetricsFacts.
Import Characters Re Levenshtein LevenshteinFacts AccuracyMetrics TableFacts.

Lemma Qnat_nonneg n : (0 <= Qnat n)%Q.
Proof.
  unfold Qnat. change 0%Q with (inject_Z 0). rewrite <- Zle_Qle. lia.
Qed.

Lemma Qnat_le a b : a <= b -> (Qnat a <= Qnat b)%Q.
Proof. intros H. unfold Qnat. rewrite <- Zle_Qle. lia. Qed.

Lemma Qnat_pos n : 0 < n -> (0 < Qnat n)%Q.
Proof.
  intros H. unfold Qnat. change 0%Q with (inject_Z 0). rewrite <- Zlt_Qlt. lia.
Qed.

Lemma Qlen_pos {A : Type} (l : list A) : is_empty l = false -> (0 < Qlen l)%Q.
Proof.
  intros H. apply Qnat_pos. destruct l; [discriminate | simpl; lia].
Qed.

(** A ratio of a count to a positive length, clamped at one. *)
Lemma clamped_ratio_range d len :
  (0 < len)%Q -> (0 <= d)%Q -> (0 <= Qmin (d / len) 1 <= 1)%Q.
Proof.
  intros Hlen Hd. split.
  - apply Q.min_glb; [|discriminate].
    apply Qle_shift_div_l; [exact Hlen|]. now rewrite Qmult_0_l.
  - apply Q.le_min_r.
Qed.

Lemma levenshtein_refl s : calculate_levenshtein_distance s s = 0.
Proof.
  rewrite calculate_levenshtein_distance_spec. apply edit_distance_refl.
Qed.

Lemma zero_ratio_clamped len : (Qmin (Qnat 0 / len) 1 == 0)%Q.
Proof.
  assert (Hz : (Qnat 0 / len == 0)%Q) by (unfold Qdiv; apply Qmult_0_l).
  rewrite Q.min_l; [exact Hz|]. rewrite Hz. discriminate.
Qed.

(** C8: the distance of a text to itself is zero, the distance is
    symmetric in its two arguments, and the distance between the empty
    text and a text is the length of that text, in both argument
    orders. *)
Theorem levenshtein_identity_symmetry_empty :
  (forall s, calculate_levenshtein_distance s s = 0) /\
  (forall a b, calculate_levenshtein_distance a b =
               calculate_levenshtein_distance b a) /\
  (forall s, calculate_levenshtein_distance [] s = length s /\
             calculate_levenshtein_distance s [] = length s).
Proof.
  split; [|split].
  - intros s. rewrite calculate_levenshtein_distance_spec.
    apply edit_distance_refl.
  - intros a b. rewrite !calculate_levenshtein_distance_spec.
    apply edit_distance_sym.
  - intros s. rewrite !calculate_levenshtein_distance_spec. split.
    + simpl rev. rewrite edit_distance_nil_l. apply length_rev.
    + simpl rev. rewrite edit_distance_nil_r. apply length_rev.
Qed.

(** C6: the character error rate lies between 0 and 1; for an empty
    reference it is 0 when the candidate is empty too and 1 otherwise;
    for any other reference it is the smaller of 1 and the ratio of the
    Levenshtein distance to the length of the reference. *)
Theorem calculate_cer_clamped ground_truth predicted :
  (0 <= calculate_cer ground_truth predicted <= 1)%Q /\
  (calculate_cer ground_truth predicted ==
   if is_empty ground_truth then (if is_empty predicted then 0 else 1)
   else Qmin 1 (Qnat (calculate_levenshtein_distance ground_truth predicted)
                / Qlen ground_truth))%Q.
Proof.
  unfold calculate_cer.
  destruct (is_empty ground_truth) eqn:Egt.
  - destruct (is_empty predicted); split; try reflexivity; split; discriminate.
  - split.
    + apply clamped_ratio_range; [now apply Qlen_pos | apply Qnat_nonneg].
    + apply Q.min_comm.
Qed.

(** *** Word accuracy *)

Lemma length_filter_map {A B : Type} (f : B -> bool) (g : A -> B) l :
  length (filter f (map g l)) = length (filter (fun x => f (g x)) l).
Proof.
  induction l as [|x l IH]; simpl; [reflexivity|].
  destruct (f (g x)); simpl; now rewrite IH.
Qed.

Lemma positional_matches_cons g gw pw :
  positional_matches (g :: gw) pw =
  match pw with
  | [] => 0
  | p :: pw' => (if text_eqb g p then 1 else 0) + positional_matches gw pw'
  end.
Proof.
  unfold positional_matches. simpl length.
  change (seq 0 (S (length gw))) with (0 :: seq 1 (length gw)).
  rewrite <- seq_shift. simpl filter.
  destruct pw as [|p pw'].
  - simpl. rewrite length_filter_map.
    rewrite (filter_ext _ (fun _ => false)).
    + now induction (seq 0 (length gw)).
    + intros i. simpl. now destruct (nth_error gw i).
  - simpl nth_error.
    destruct (text_eqb g p); simpl; now rewrite length_filter_map.
Qed.

(** The count over [zip] is the positional count of the specification. *)
Lemma correct_words_positional gw :
  forall pw, correct_words gw pw = positional_matches gw pw.
Proof.
  induction gw as [|g gw IH]; intros pw.
  - reflexivity.
  - rewrite positional_matches_cons. destruct pw as [|p pw']; [reflexivity|].
    unfold correct_words in *. simpl.
    destruct (text_eqb g p); simpl; now rewrite IH.
Qed.

Lemma correct_words_le gw pw : correct_words gw pw <= length gw.
Proof.
  unfold correct_words.
  etransitivity; [apply filter_length_le|].
  rewrite length_combine. lia.
Qed.

Lemma correct_words_same l : correct_words l l = length l.
Proof.
  unfold correct_words. induction l as [|x l IH]; [reflexivity|].
  simpl. rewrite text_eqb_refl. simpl. now rewrite IH.
Qed.

(** C7: the word accuracy is positional.  It is the number of indices at
    which the normalized reference and the normalized candidate hold the
    same word, over the number of reference words, times 100; with no
    reference word it is 100 when there is no candidate word either and 0
    otherwise.  It lies between 0 and 100. *)
Theorem calculate_word_accuracy_positional ground_truth predicted :
  let ref_words := split (normalize_text ground_truth) in
  let cand_words := split (normalize_text predicted) in
  (calculate_word_accuracy ground_truth predicted ==
   if is_empty ref_words then (if is_empty cand_words then 100 else 0)
   else Qnat (positional_matches ref_words cand_words) / Qlen ref_words * 100)%Q
  /\ (0 <= calculate_word_accuracy ground_truth predicted <= 100)%Q.
Proof.
  intros ref_words cand_words. unfold calculate_word_accuracy.
  fold ref_words cand_words.
  destruct (is_empty ref_words) eqn:Eref.
  - destruct (is_empty cand_words); split; try reflexivity; split; discriminate.
  - rewrite correct_words_positional. split; [reflexivity|].
    rewrite <- correct_words_positional.
    pose proof (Qlen_pos _ Eref) as Hpos.
    pose proof (correct_words_le ref_words cand_words) as Hle.
    split.
    + apply Qmult_le_0_compat; [|discriminate].
      apply Qle_shift_div_l; [exact Hpos|].
      rewrite Qmult_0_l. apply Qnat_nonneg.
    + setoid_replace 100%Q with (1 * 100)%Q at 2 by reflexivity.
      apply Qmult_le_compat_r; [|discriminate].
      apply Qle_shift_div_r; [exact Hpos|].
      rewrite Qmult_1_l. now apply Qnat_le.
Qed.

(** *** Differences of letter case *)

Lemma lower_same_up_to_case a b : same_up_to_case a b -> lower a = lower b.
Proof.
  unfold same_up_to_case, lower.
  induction 1 as [|x y a b Hxy _ IH]; simpl; congruence.
Qed.

Lemma word_accuracy_same_words a b :
  split (normalize_text a) = split (normalize_text b) ->
  (calculate_word_accuracy a b == 100)%Q.
Proof.
  intros E. unfold calculate_word_accuracy. rewrite <- E.
  destruct (is_empty (split (normalize_text a))) eqn:Ew; [reflexivity|].
  rewrite correct_words_same.
  pose proof (Qlen_pos _ Ew) as Hpos.
  change (Qnat (length (split (normalize_text a))))
    with (Qlen (split (normalize_text a))).
  field. intros H0. rewrite H0 in Hpos. discriminate.
Qed.

Lemma wer_same_words a b :
  split (normalize_text a) = split (normalize_text b) ->
  (calculate_wer a b == 0)%Q.
Proof.
  intros E. unfold calculate_wer. rewrite <- E.
  destruct (is_empty (split (normalize_text a))) eqn:Ew; [reflexivity|].
  rewrite wer_table_result, word_distance_refl.
  apply zero_ratio_clamped.
Qed.

Lemma levenshtein_zero_eq a b :
  calculate_levenshtein_distance a b = 0 -> a = b.
Proof.
  rewrite calculate_levenshtein_distance_spec. intros H.
  apply edit_distance_zero in H.
  rewrite <- (rev_involutive a), <- (rev_involutive b). now f_equal.
Qed.

Lemma cer_same a : (calculate_cer a a == 0)%Q.
Proof.
  unfold calculate_cer. destruct (is_empty a) eqn:Ea; [reflexivity|].
  rewrite levenshtein_refl. apply zero_ratio_clamped.
Qed.

(** C9, as the code has it: two texts whose lower-cased forms are equal
    get the word accuracy and the word error rate of identical texts, 100
    and 0, since both compare the words of the normalized texts; two texts
    of code points below 256 that differ only in letter case are such
    texts.  The character error rate, which compares the texts as they
    are, is 0 for identical texts and strictly positive as soon as the two
    texts are not the same. *)
Theorem case_differences_words_and_characters a b :
  (same_up_to_case a b -> lower a = lower b) /\
  (lower a = lower b ->
   (calculate_word_accuracy a b == 100)%Q /\
   (calculate_word_accuracy a b == calculate_word_accuracy a a)%Q /\
   (calculate_wer a b == 0)%Q /\
   (calculate_wer a b == calculate_wer a a)%Q) /\
  (calculate_cer a a == 0)%Q /\
  (a <> b -> (0 < calculate_cer a b)%Q).
Proof.
  split; [apply lower_same_up_to_case|]. split; [|split].
  - intros Hab.
    assert (Ew : split (normalize_text a) = split (normalize_text b))
      by (unfold normalize_text; now rewrite Hab).
    repeat split.
    + now apply word_accuracy_same_words.
    + now rewrite !word_accuracy_same_words.
    + now apply wer_same_words.
    + now rewrite !wer_same_words.
  - apply cer_same.
  - intros Hne. unfold calculate_cer.
    destruct (is_empty a) eqn:Ea.
    + destruct a; [|discriminate]. destruct b; [now elim Hne|reflexivity].
    + apply Q.min_glb_lt; [|reflexivity].
      apply Qlt_shift_div_l; [now apply Qlen_pos|].
      rewrite Qmult_0_l. apply Qnat_pos.
      destruct (calculate_levenshtein_distance a b) eqn:Ed; [|lia].
      now apply levenshtein_zero_eq in Ed.
Qed.

Lemma case_differences_words_and_characters_witness :
  same_up_to_case (str "Hello World") (str "hello world") /\
  lower (str "Hello World") = lower (str "hello world") /\
  (calculate_word_accuracy (str "Hello World") (str "hello world") == 100)%Q /\
  (calculate_wer (str "Hello World") (str "hello world") == 0)%Q /\
  (0 < calculate_cer (str "Hello World") (str "hello world"))%Q.
Proof.
  assert (H : same_up_to_case (str "Hello World") (str "hello world"))
    by (repeat constructor).
  destruct (case_differences_words_and_characters
              (str "Hello World") (str "hello world"))
    as (Hlower & Hwords & _ & Hcer).
  destruct (Hwords (Hlower H)) as (Hwa & _ & Hwer & _).
  split; [exact H|]. split; [exact (Hlower H)|].
  split; [exact Hwa|]. split; [exact Hwer|].
  apply Hcer. discriminate.
Defined.

End MetricsFacts.


Module CorrectionFacts.
Import Characters Re SmartCorrection TableFacts.



(** *** The entries recorded by each stage *)

Lemma repair_loop_entries t ms :
  forall c acc,
    snd (fold_left (repair_word t) ms (c, acc)) =
    acc ++ map (repaired_entry t) ms.
Proof.
  induction ms as [|m ms IH]; intros c acc; simpl.
  - now rewrite app_nil_r.
  - rewrite IH, <- app_assoc. reflexivity.
Qed.

Lemma repair_rm_words_entries t :
  snd (repair_rm_words t) = map (repaired_entry t) (rev (finditer PATTERN_RM t)).
Proof. unfold repair_rm_words. now rewrite repair_loop_entries. Qed.

Lemma char_loop_entries prs :
  forall c acc,
    snd (fold_left replace_chars prs (c, acc)) =
    acc ++ repeat FixedCharacterConfusion
             (length (filter (fun bc => negb (text_eqb (fst bc) (snd bc)))
                        (char_stage_trace prs c))).
Proof.
  induction prs as [|[pattern replacement] prs IH]; intros c acc; simpl.
  - now rewrite app_nil_r.
  - destruct (negb (text_eqb c (sub pattern replacement c))); simpl.
    + rewrite IH, <- app_assoc. reflexivity.
    + now rewrite IH.
Qed.

(** C2, as the code has it: the first stage records one entry for each
    match of its pattern, in the order in which it rewrites them (from the
    last match to the first); the eight substitutions that collapse rm, rn
    and nn record nothing; the stage of the short words records one entry
    when it alters the text and none otherwise; each of the fourteen
    character substitutions records one entry when it alters the text and
    none otherwise. *)
Theorem corrections_entries_per_stage t :
  corrections (correct_common_mistakes t) =
    map (repaired_entry t) (rev (finditer PATTERN_RM t))
    ++ (if text_eqb (text_after_collapse t) (text_after_short_words t)
        then [] else [FixedCapitalization])
    ++ repeat FixedCharacterConfusion
         (char_stages_fired (text_after_short_words t))
  /\ length (corrections (correct_common_mistakes t)) =
     length (finditer PATTERN_RM t)
     + (if text_eqb (text_after_collapse t) (text_after_short_words t)
        then 0 else 1)
     + char_stages_fired (text_after_short_words t).
Proof.
  assert (E : corrections (correct_common_mistakes t) =
    map (repaired_entry t) (rev (finditer PATTERN_RM t))
    ++ (if text_eqb (text_after_collapse t) (text_after_short_words t)
        then [] else [FixedCapitalization])
    ++ repeat FixedCharacterConfusion
         (char_stages_fired (text_after_short_words t))).
  { assert (Hc3 : text_after_short_words t =
                  sub_with PATTERN_SHORT_WORDS uppercase_short_words
                    (collapse_rm_rn_nn (fst (repair_rm_words t))))
      by reflexivity.
    assert (Hc2 : text_after_collapse t =
                  collapse_rm_rn_nn (fst (repair_rm_words t)))
      by reflexivity.
    rewrite <- repair_rm_words_entries.
    unfold correct_common_mistakes, char_stages_fired.
    rewrite Hc3, Hc2. clear Hc3 Hc2.
    destruct (repair_rm_words t) as [c0 acc0]. cbv zeta. cbn [fst snd].
    generalize (collapse_rm_rn_nn c0). intros c2.
    generalize (sub_with PATTERN_SHORT_WORDS uppercase_short_words c2).
    intros c3.
    generalize CHAR_REPLACEMENTS. intros prs.
    destruct (negb (text_eqb c2 c3)) eqn:Eneg;
      [apply negb_true_iff in Eneg | apply negb_false_iff in Eneg];
      rewrite Eneg.
    - pose proof (char_loop_entries prs c3 (acc0 ++ [FixedCapitalization])) as H.
      destruct (fold_left replace_chars prs (c3, acc0 ++ [FixedCapitalization]))
        as [c4 acc4].
      cbn [snd] in H. cbn [corrections]. rewrite H, <- app_assoc. reflexivity.
    - pose proof (char_loop_entries prs c3 acc0) as H.
      destruct (fold_left replace_chars prs (c3, acc0)) as [c4 acc4].
      cbn [snd] in H. cbn [corrections]. rewrite H. reflexivity. }
  split; [exact E|].
  rewrite E, !length_app, length_map, length_rev, repeat_length.
  destruct (text_eqb _ _); cbn [length]; lia.
Qed.

(** C2 as stated fails.  On "rm" the substitution of the stand-alone "rm"
    alters the text and nothing is recorded; on "Arma Brmb" the first
    stage alone records two entries, one for each match. *)
Lemma stages_record_none_or_several :
  (text_after_repair (str "rm") = str "rm" /\
   text_after_collapse (str "rm") = str "M" /\
   corrections (correct_common_mistakes (str "rm")) = []) /\
  (length (finditer PATTERN_RM (str "Arma Brmb")) = 2 /\
   corrections (correct_common_mistakes (str "Arma Brmb")) =
     [WordRepaired (str "Brmb") (str "BMB");
      WordRepaired (str "Arma") (str "AMA")]).
Proof. repeat split; vm_compute; reflexivity. Qed.




End CorrectionFacts.

Module RankerFacts.
Import Characters AccuracyMetrics EngineRanker.

Section Sorting.
Context {A : Type} (key : A -> Q).

Lemma insert_descending_perm x l :
  Permutation (insert_descending key x l) (x :: l).
Proof.
  induction l as [|y l IH]; simpl; [reflexivity|].
  destruct (Qle_bool (key y) (key x)); [reflexivity|].
  rewrite IH. apply perm_swap.
Qed.

Lemma sort_descending_perm l : Permutation (sort_descending key l) l.
Proof.
  induction l as [|x l IH]; simpl; [reflexivity|].
  rewrite insert_descending_perm. now constructor.
Qed.

Lemma insert_descending_sorted x l :
  StronglySorted (fun a b => (key b <= key a)%Q) l ->
  StronglySorted (fun a b => (key b <= key a)%Q) (insert_descending key x l).
Proof.
  induction 1 as [|y l Hsorted IH Hall]; simpl.
  - repeat constructor.
  - destruct (Qle_bool (key y) (key x)) eqn:E.
    + apply Qle_bool_iff in E. constructor.
      * now constructor.
      * constructor; [exact E|].
        eapply Forall_impl; [|exact Hall].
        intros z Hz. simpl in *. now apply (Qle_trans _ (key y)).
    + assert (Hlt : (key x < key y)%Q).
      { apply Qnot_le_lt. intros H. apply Qle_bool_iff in H. congruence. }
      constructor; [exact IH|].
      apply (Permutation_Forall (Permutation_sym (insert_descending_perm x l))).
      constructor; [now apply Qlt_le_weak | exact Hall].
Qed.

Lemma sort_descending_sorted l :
  StronglySorted (fun a b => (key b <= key a)%Q) (sort_descending key l).
Proof.
  induction l as [|x l IH]; simpl; [constructor|].
  now apply insert_descending_sorted.
Qed.

(** An inserted element passes no element of its own key. *)
Lemma insert_descending_stable k x l :
  filter (fun z => Qeq_bool (key z) k) (insert_descending key x l) =
  filter (fun z => Qeq_bool (key z) k) (x :: l).
Proof.
  induction l as [|y l IH]; [reflexivity|].
  simpl insert_descending.
  destruct (Qle_bool (key y) (key x)) eqn:E; [reflexivity|].
  assert (Hlt : (key x < key y)%Q).
  { apply Qnot_le_lt. intros H. apply Qle_bool_iff in H. congruence. }
  cbn [filter] in *. rewrite IH.
  destruct (Qeq_bool (key x) k) eqn:Ex; [|reflexivity].
  destruct (Qeq_bool (key y) k) eqn:Ey; [|reflexivity].
  apply Qeq_bool_iff in Ex, Ey. rewrite Ex, Ey in Hlt.
  now apply Qlt_irrefl in Hlt.
Qed.

Lemma sort_descending_stable k l :
  filter (fun z => Qeq_bool (key z) k) (sort_descending key l) =
  filter (fun z => Qeq_bool (key z) k) l.
Proof.
  induction l as [|x l IH]; [reflexivity|].
  simpl sort_descending. rewrite insert_descending_stable.
  cbn [filter]. now rewrite IH.
Qed.

Lemma sorted_before x y l :
  StronglySorted (fun a b => (key b <= key a)%Q) l ->
  before_in x y l -> (key y <= key x)%Q.
Proof.
  intros Hsorted (l1 & l2 & l3 & ->).
  induction l1 as [|z l1 IH]; simpl in Hsorted;
    apply StronglySorted_inv in Hsorted; destruct Hsorted as [Htail Hall].
  - rewrite Forall_forall in Hall. apply Hall.
    apply in_or_app. right. now left.
  - now apply IH.
Qed.

End Sorting.

Lemma compare_engines_perm gt rs :
  Permutation (compare_engines gt rs) (map (score_result gt) rs).
Proof. apply sort_descending_perm. Qed.

Lemma score_result_not_scored gt r : scored r = false -> score_result gt r = r.
Proof.
  unfold scored, score_result.
  destruct (get_success r), (r_text r); congruence.
Qed.

(** C3, as the code has it: the result of [compare_engines] holds, in
    some order, one entry for each input result.  The entry of a result is
    a copy with a fresh metrics record, computed from its text, exactly
    when the flag [success] is true or absent and the key [text] is
    present, whether the text is empty or not; every other result, hence
    every failed one, is passed on as it is.  The copy differs from the
    result in the metrics record only.  The condition of the
    specification (flag true, text not empty) is sufficient. *)
Theorem compare_engines_scores_flagged_with_text gt rs :
  Permutation (compare_engines gt rs) (map (score_result gt) rs) /\
  (forall r,
     r_accuracy_metrics (score_result gt r) =
       match scored r, r_text r with
       | true, Some t => Some (get_detailed_metrics gt t)
       | _, _ => r_accuracy_metrics r
       end /\
     r_engine (score_result gt r) = r_engine r /\
     r_text (score_result gt r) = r_text r /\
     r_success (score_result gt r) = r_success r /\
     r_error (score_result gt r) = r_error r /\
     r_other (score_result gt r) = r_other r) /\
  (forall r, scored r = false -> score_result gt r = r) /\
  (forall r, failed r = true -> scored r = false) /\
  (forall r, success_and_text r = true -> scored r = true).
Proof.
  split; [apply compare_engines_perm|]. split; [|split; [|split]].
  - intros r. unfold score_result, scored.
    destruct (get_success r), (r_text r) eqn:Et; repeat split; exact Et.
  - intros r. apply score_result_not_scored.
  - intros r. unfold failed, scored, get_success.
    destruct (r_success r) as [[|]|]; try discriminate.
    now destruct (r_text r).
  - intros r. unfold success_and_text, scored, get_success.
    destruct (r_success r) as [[|]|]; try discriminate.
    destruct (r_text r) as [[|c t]|]; try discriminate. reflexivity.
Qed.

Lemma compare_engines_scores_flagged_with_text_witness :
  failed failed_result = true /\
  scored failed_result = false /\
  score_result (str "a") failed_result = failed_result.
Proof.
  destruct (compare_engines_scores_flagged_with_text (str "a") [failed_result])
    as (_ & _ & Hsame & Hfailed & _).
  assert (Hf : failed failed_result = true) by reflexivity.
  split; [exact Hf|].
  split; [exact (Hfailed failed_result Hf)|].
  exact (Hsame failed_result (Hfailed failed_result Hf)).
Defined.

(** C3 as stated fails: a successful result whose text is empty does not
    meet the condition of the specification, and a metrics record is
    attached to it all the same. *)
Lemma blank_text_is_scored :
  success_and_text blank_result = false /\
  compare_engines (str "a") [blank_result] =
    [with_metrics blank_result (get_detailed_metrics (str "a") [])] /\
  r_accuracy_metrics blank_result = None.
Proof. repeat split; vm_compute; reflexivity. Qed.

(** C4, as the code has it: no result is dropped; the results come in
    descending order of the sort key, which is the character accuracy of
    the metrics record and 0 without one; results of equal key keep the
    order of the input; whatever comes after a result without a metrics
    record has a key of at most 0, so that such a result stands after
    every result of a positive character accuracy. *)
Theorem compare_engines_stable_descending gt rs :
  Permutation (compare_engines gt rs) (map (score_result gt) rs) /\
  length (compare_engines gt rs) = length rs /\
  StronglySorted (fun x y => (sort_key y <= sort_key x)%Q)
    (compare_engines gt rs) /\
  (forall k,
     filter (fun z => Qeq_bool (sort_key z) k) (compare_engines gt rs) =
     filter (fun z => Qeq_bool (sort_key z) k) (map (score_result gt) rs)) /\
  (forall x y,
     before_in x y (compare_engines gt rs) ->
     r_accuracy_metrics x = None -> (sort_key y <= 0)%Q).
Proof.
  split; [apply compare_engines_perm|]. split; [|split; [|split]].
  - rewrite (Permutation_length (compare_engines_perm gt rs)).
    apply length_map.
  - apply sort_descending_sorted.
  - intros k. apply sort_descending_stable.
  - intros x y Hbefore Hnone.
    assert (Hx : sort_key x = 0%Q) by (unfold sort_key; now rewrite Hnone).
    rewrite <- Hx.
    apply (sorted_before sort_key x y (compare_engines gt rs));
      [apply sort_descending_sorted | exact Hbefore].
Qed.

Lemma compare_engines_stable_descending_witness :
  before_in failed_result
    (with_metrics wrong_result (get_detailed_metrics (str "a") (str "b")))
    (compare_engines (str "a") [failed_result; wrong_result]) /\
  r_accuracy_metrics failed_result = None /\
  (sort_key
     (with_metrics wrong_result (get_detailed_metrics (str "a") (str "b")))
   <= 0)%Q.
Proof.
  assert (Hb : before_in failed_result
            (with_metrics wrong_result
               (get_detailed_metrics (str "a") (str "b")))
            (compare_engines (str "a") [failed_result; wrong_result]))
    by (exists [], [], []; vm_compute; reflexivity).
  destruct (compare_engines_stable_descending (str "a")
              [failed_result; wrong_result]) as (_ & _ & _ & _ & Hafter).
  split; [exact Hb|]. split; [reflexivity|].
  exact (Hafter _ _ Hb eq_refl).
Defined.

(** C4 as stated fails: a failed result that comes first in the input
    stays before a successful result of character accuracy 0. *)
Lemma failed_result_before_successful_one :
  failed failed_result = true /\
  get_success wrong_result = true /\
  compare_engines (str "a") [failed_result; wrong_result] =
    [failed_result;
     with_metrics wrong_result (get_detailed_metrics (str "a") (str "b"))] /\
  before_in failed_result
    (with_metrics wrong_result (get_detailed_metrics (str "a") (str "b")))
    (compare_engines (str "a") [failed_result; wrong_result]).
Proof.
  split; [reflexivity|]. split; [reflexivity|].
  assert (E : compare_engines (str "a") [failed_result; wrong_result] =
    [failed_result;
     with_metrics wrong_result (get_detailed_metrics (str "a") (str "b"))])
    by (vm_compute; reflexivity).
  split; [exact E|]. rewrite E. now exists [], [], [].
Qed.

(** C10: a result that has the key [text] and no key [success] is taken
    for a success, the flag read being true: among the results returned
    there is a copy of it that holds, under the key [accuracy_metrics], the
    metrics record computed from the reference and its text, and that has
    every other key as the result has it, the flag still absent. *)
Theorem missing_success_flag_is_scored gt rs r t :
  In r rs -> r_success r = None -> r_text r = Some t ->
  get_success r = true /\
  exists copy,
    In copy (compare_engines gt rs) /\
    r_accuracy_metrics copy = Some (get_detailed_metrics gt t) /\
    r_engine copy = r_engine r /\
    r_text copy = Some t /\
    r_success copy = None /\
    r_error copy = r_error r /\
    r_other copy = r_other r.
Proof.
  intros Hin Hflag Htext.
  assert (Hs : get_success r = true) by (unfold get_success; now rewrite Hflag).
  split; [exact Hs|].
  exists (score_result gt r). split.
  - apply (Permutation_in _ (Permutation_sym (compare_engines_perm gt rs))).
    now apply in_map.
  - unfold score_result. rewrite Hs, Htext. cbn.
    repeat split; assumption.
Qed.

Lemma missing_success_flag_is_scored_witness :
  In unflagged_result [unflagged_result] /\
  r_success unflagged_result = None /\
  r_text unflagged_result = Some (str "b") /\
  r_accuracy_metrics unflagged_result = None /\
  exists copy,
    In copy (compare_engines (str "a") [unflagged_result]) /\
    r_accuracy_metrics copy =
      Some (get_detailed_metrics (str "a") (str "b")) /\
    r_success copy = None.
Proof.
  split; [now left|]. split; [reflexivity|]. split; [reflexivity|].
  split; [reflexivity|].
  destruct (missing_success_flag_is_scored (str "a") [unflagged_result]
              unflagged_result (str "b"))
    as (_ & copy & Hin & Hmetrics & _ & _ & Hflag & _).
  - now left.
  - reflexivity.
  - reflexivity.
  - exists copy. split; [exact Hin|]. split; [exact Hmetrics|exact Hflag].
Defined.

End RankerFacts.

Module CacheFacts.
Import Characters SmartCorrection TextRecognizer TableFacts.

Lemma dict_contains_keys k c : dict_contains k c = true <-> In k (keys c).
Proof.
  unfold dict_contains, keys. rewrite existsb_exists, in_map_iff.
  split.
  - intros (kv & Hin & Heq). apply text_eqb_eq in Heq. now exists kv.
  - intros (kv & Heq & Hin). exists kv. split; [exact Hin|].
    now apply text_eqb_eq.
Qed.

Lemma dict_contains_false k c : ~ In k (keys c) -> dict_contains k c = false.
Proof.
  intros H. destruct (dict_contains k c) eqn:E; [|reflexivity].
  now apply dict_contains_keys in E.
Qed.

Lemma dict_set_absent k v c :
  dict_contains k c = false -> dict_set k v c = c ++ [(k, v)].
Proof.
  induction c as [|[k' v'] c IH]; simpl; [reflexivity|].
  intros H. apply orb_false_iff in H. destruct H as [Hk Hc].
  rewrite Hk. now rewrite IH.
Qed.

Lemma dict_set_length k v c : length (dict_set k v c) <= S (length c).
Proof.
  induction c as [|[k' v'] c IH]; simpl; [lia|].
  destruct (text_eqb k' k); simpl; lia.
Qed.

Lemma dict_del_first k v c : dict_del k ((k, v) :: c) = c.
Proof. simpl. now rewrite text_eqb_refl. Qed.

Lemma cache_store_bounded k v c :
  length c <= 100 -> length (cache_store k v c) <= 100.
Proof.
  intros Hc. unfold cache_store. cbv zeta.
  pose proof (dict_set_length k v c) as Hset.
  destruct (100 <? length (dict_set k v c)) eqn:E.
  - destruct (dict_set k v c) as [|[k0 v0] c']; [simpl; lia|].
    rewrite (dict_del_first k0 v0 c'). simpl in Hset. lia.
  - apply Nat.ltb_ge in E. exact E.
Qed.

Lemma cache_store_below k v c :
  dict_contains k c = false -> length c < 100 ->
  cache_store k v c = c ++ [(k, v)].
Proof.
  intros Hk Hc. unfold cache_store. cbv zeta.
  rewrite dict_set_absent by assumption.
  replace (100 <? length (c ++ [(k, v)])) with false; [reflexivity|].
  symmetry. apply Nat.ltb_ge. rewrite length_app. simpl. lia.
Qed.

Lemma cache_store_full k v c :
  dict_contains k c = false -> length c = 100 ->
  cache_store k v c = tl c ++ [(k, v)].
Proof.
  intros Hk Hc. unfold cache_store. cbv zeta.
  rewrite dict_set_absent by assumption.
  replace (100 <? length (c ++ [(k, v)])) with true.
  - destruct c as [|[k0 v0] c']; [discriminate|].
    cbn [app tl]. apply (dict_del_first k0 v0).
  - symmetry. apply Nat.ltb_lt. rewrite length_app. simpl. lia.
Qed.

Lemma recognize_text_miss k g c :
  dict_contains k c = false ->
  snd (recognize_text k g c) =
  cache_store k (snd (cache_entry (k, g))) c.
Proof. intros H. unfold recognize_text. now rewrite H. Qed.

Lemma recognize_text_bounded k g c :
  length c <= 100 -> length (snd (recognize_text k g c)) <= 100.
Proof.
  intros Hc. unfold recognize_text.
  destruct (dict_contains k c); simpl; [exact Hc|].
  now apply cache_store_bounded.
Qed.

Lemma run_requests_bounded requests :
  forall c, length c <= 100 -> length (run_requests requests c) <= 100.
Proof.
  induction requests as [|req requests IH]; intros c Hc; simpl; [exact Hc|].
  apply IH. now apply recognize_text_bounded.
Qed.

Lemma tl_skipn {A : Type} (l : list A) : forall k, tl (skipn k l) = skipn (S k) l.
Proof.
  induction l as [|x l IH]; intros [|k]; try reflexivity.
  simpl. apply IH.
Qed.

Lemma In_skipn {A : Type} (x : A) k l : In x (skipn k l) -> In x l.
Proof.
  intros H. rewrite <- (firstn_skipn k l). apply in_or_app. now right.
Qed.

Lemma keys_cache_entries requests :
  keys (map cache_entry requests) = map fst requests.
Proof. unfold keys. rewrite map_map. reflexivity. Qed.

(** After calls on distinct hashes the cache holds the entries of the
    last hundred calls, in the order of the calls. *)
Lemma run_requests_distinct requests :
  NoDup (map fst requests) ->
  run_requests requests [] =
  skipn (length requests - 100) (map cache_entry requests).
Proof.
  induction requests as [|req requests IH] using rev_ind; intros Hnd.
  - reflexivity.
  - rewrite map_app in Hnd. simpl in Hnd.
    pose proof (NoDup_remove_2 _ _ _ Hnd) as Hnew. rewrite app_nil_r in Hnew.
    apply NoDup_remove_1 in Hnd. rewrite app_nil_r in Hnd.
    specialize (IH Hnd).
    unfold run_requests in *. rewrite fold_left_app. simpl. rewrite IH.
    assert (Habsent : dict_contains (fst req)
              (skipn (length requests - 100) (map cache_entry requests)) = false).
    { apply dict_contains_false. intros Hin. apply Hnew.
      rewrite <- keys_cache_entries. unfold keys in *.
      apply in_map_iff in Hin. destruct Hin as (kv & Hk & Hin).
      apply in_map_iff. exists kv. split; [exact Hk|].
      now apply In_skipn in Hin. }
    rewrite recognize_text_miss by exact Habsent.
    rewrite map_app, length_app. simpl length. simpl map.
    destruct (Nat.lt_ge_cases (length requests) 100) as [Hlt|Hge].
    + replace (length requests - 100) with 0 in * by lia.
      replace (length requests + 1 - 100) with 0 by lia. simpl skipn.
      rewrite cache_store_below; [reflexivity | exact Habsent |].
      rewrite length_map. exact Hlt.
    + rewrite cache_store_full; [| exact Habsent |].
      * rewrite tl_skipn, skipn_app, length_map.
        replace (length requests + 1 - 100) with (S (length requests - 100))
          by lia.
        replace (S (length requests - 100) - length requests) with 0 by lia.
        reflexivity.
      * rewrite length_skipn, length_map. lia.
Qed.

Lemma In_last {A : Type} (d : A) l : l <> [] -> In (last l d) l.
Proof.
  intros H. rewrite (app_removelast_last d H) at 2.
  apply in_or_app. right. now left.
Qed.

Lemma distinct_single_character_keys m :
  forall a, a + m <= 256 ->
            NoDup (map (fun n => [ascii_of_nat n]) (seq a m)).
Proof.
  induction m as [|m IH]; intros a Ha; simpl; constructor.
  - intros Hin. apply in_map_iff in Hin. destruct Hin as (b & Heq & Hb).
    apply in_seq in Hb. injection Heq as Heq.
    apply (f_equal nat_of_ascii) in Heq.
    rewrite !nat_ascii_embedding in Heq by lia. lia.
  - apply IH. lia.
Qed.

Lemma hundred_and_one_requests_distinct :
  NoDup (map fst hundred_and_one_requests) /\
  length hundred_and_one_requests = 101.
Proof.
  unfold hundred_and_one_requests. split.
  - rewrite map_map. simpl fst.
    apply (distinct_single_character_keys 101 0). lia.
  - now rewrite length_map, length_seq.
Qed.

(** C5: the cache never holds more than 100 entries once a call has
    stored its result, starting from the empty cache of the module; a
    call that stores a new key in a cache of 100 entries removes the
    entry at the head of the insertion order, and that entry alone; after
    calls on 101 distinct keys the cache holds the entries of the last
    100 of them: 100 entries, the first key absent, the last present. *)
Theorem recognition_cache_bounded_fifo :
  (forall requests, length (run_requests requests []) <= 100) /\
  (forall k g c, length c <= 100 ->
                 length (snd (recognize_text k g c)) <= 100) /\
  (forall k g c, dict_contains k c = false -> length c = 100 ->
                 snd (recognize_text k g c) = tl c ++ [cache_entry (k, g)]) /\
  (forall requests,
     NoDup (map fst requests) -> length requests = 101 ->
     run_requests requests [] = tl (map cache_entry requests) /\
     length (run_requests requests []) = 100 /\
     dict_contains (fst (hd ([], []) requests)) (run_requests requests [])
       = false /\
     dict_contains (fst (last requests ([], []))) (run_requests requests [])
       = true).
Proof.
  split; [|split; [|split]].
  - intros requests. apply run_requests_bounded. simpl. lia.
  - intros k g c. apply recognize_text_bounded.
  - intros k g c Hk Hc. rewrite recognize_text_miss by exact Hk.
    now apply cache_store_full.
  - intros requests Hnd Hlen.
    assert (E : run_requests requests [] = tl (map cache_entry requests)).
    { rewrite run_requests_distinct by exact Hnd. rewrite Hlen.
      change (101 - 100) with 1. now rewrite <- tl_skipn. }
    rewrite E.
    destruct requests as [|r0 rest]; [discriminate|].
    simpl in Hlen. simpl tl. simpl hd.
    split; [reflexivity|]. split; [rewrite length_map; lia|].
    simpl in Hnd. apply NoDup_cons_iff in Hnd. destruct Hnd as [Hfirst _].
    split.
    + apply dict_contains_false. now rewrite keys_cache_entries.
    + apply dict_contains_keys. rewrite keys_cache_entries.
      assert (Hrest : rest <> []) by (destruct rest; [discriminate|easy]).
      replace (last (r0 :: rest) ([], [])) with (last rest ([], []))
        by (destruct rest; [congruence|reflexivity]).
      apply in_map. now apply In_last.
Qed.

Lemma recognition_cache_bounded_fifo_witness :
  NoDup (map fst hundred_and_one_requests) /\
  length hundred_and_one_requests = 101 /\
  length (run_requests hundred_and_one_requests []) = 100 /\
  dict_contains [ascii_of_nat 0] (run_requests hundred_and_one_requests [])
    = false /\
  dict_contains [ascii_of_nat 100] (run_requests hundred_and_one_requests [])
    = true.
Proof.
  destruct hundred_and_one_requests_distinct as [Hnd Hlen].
  destruct recognition_cache_bounded_fifo as (_ & _ & _ & Hfifo).
  destruct (Hfifo hundred_and_one_requests Hnd Hlen)
    as (_ & Hsize & Hfirst & Hlast).
  split; [exact Hnd|]. split; [exact Hlen|]. split; [exact Hsize|].
  split; [exact Hfirst | exact Hlast].
Defined.

End CacheFacts.

(** * Further properties of the Levenshtein distance *)

Module LevenshteinBounds.
Import Levenshtein LevenshteinFacts.

#[local] Arguments edit_distance : simpl never.

Lemma neq_cost_le_1 c d : neq_cost c d <= 1.
Proof. unfold neq_cost. destruct (Ascii.eqb c d); lia. Qed.

Lemma neq_cost_triangle c d e : neq_cost c e <= neq_cost c d + neq_cost d e.
Proof.
  unfold neq_cost.
  destruct (Ascii.eqb c d) eqn:Ecd; destruct (Ascii.eqb d e) eqn:Ede;
    destruct (Ascii.eqb c e) eqn:Ece; try lia.
  apply Ascii.eqb_eq in Ecd, Ede. subst.
  rewrite Ascii.eqb_refl in Ece. discriminate.
Qed.

Lemma edit_distance_le_max a :
  forall b, edit_distance a b <= Nat.max (length a) (length b).
Proof.
  induction a as [|x a IHa]; intros b.
  - rewrite edit_distance_nil_l. simpl. lia.
  - destruct b as [|y b].
    + rewrite edit_distance_nil_r. simpl. lia.
    + rewrite edit_distance_cons. specialize (IHa b).
      pose proof (neq_cost_le_1 x y). unfold min3. simpl length. lia.
Qed.

Lemma edit_distance_ge_diff a :
  forall b, length a - length b <= edit_distance a b /\
            length b - length a <= edit_distance a b.
Proof.
  induction a as [|x a IHa]; intros b.
  - rewrite edit_distance_nil_l. simpl. lia.
  - induction b as [|y b IHb].
    + rewrite edit_distance_nil_r. simpl. lia.
    + rewrite edit_distance_cons.
      pose proof (IHa (y :: b)) as H1. pose proof (IHa b) as H2.
      unfold min3. simpl length in *. lia.
Qed.

Lemma edit_distance_triangle a :
  forall b c, edit_distance a c <= edit_distance a b + edit_distance b c.
Proof.
  induction a as [|x a IHa].
  - intros b c. rewrite !edit_distance_nil_l.
    pose proof (edit_distance_ge_diff b c). lia.
  - induction b as [|y b IHb].
    + intros c. rewrite edit_distance_nil_r, edit_distance_nil_l.
      pose proof (edit_distance_le_max (x :: a) c). simpl length in *. lia.
    + induction c as [|z c IHc].
      * rewrite !edit_distance_nil_r.
        pose proof (edit_distance_ge_diff (x :: a) (y :: b)). lia.
      * pose proof (IHa (y :: b) (z :: c)) as T1.
        pose proof (IHa b (z :: c)) as T2.
        pose proof (IHa b c) as T3.
        pose proof (IHb (z :: c)) as T4.
        pose proof (IHb c) as T5.
        pose proof (neq_cost_triangle x y z) as Tn.
        pose proof (edit_distance_cons x a z c) as Eac.
        pose proof (edit_distance_cons x a y b) as Eab.
        pose proof (edit_distance_cons y b z c) as Ebc.
        pose proof (edit_distance_cons x a z c) as E0.
        unfold min3 in *. lia.
Qed.

(** X1: the distance is at least the difference of the two lengths and at most
    the greater of them. *)
Theorem levenshtein_distance_bounds s1 s2 :
  length s1 - length s2 <= calculate_levenshtein_distance s1 s2 /\
  length s2 - length s1 <= calculate_levenshtein_distance s1 s2 /\
  calculate_levenshtein_distance s1 s2 <= Nat.max (length s1) (length s2).
Proof.
  rewrite calculate_levenshtein_distance_spec.
  pose proof (edit_distance_ge_diff (rev s1) (rev s2)) as [H1 H2].
  pose proof (edit_distance_le_max (rev s1) (rev s2)) as H3.
  rewrite !length_rev in *. auto.
Qed.

(** X2: the distance is zero for equal texts and for them only. *)
Theorem levenshtein_distance_zero_iff s1 s2 :
  calculate_levenshtein_distance s1 s2 = 0 <-> s1 = s2.
Proof.
  rewrite calculate_levenshtein_distance_spec. split.
  - intros H. apply edit_distance_zero in H.
    rewrite <- (rev_involutive s1), <- (rev_involutive s2). now f_equal.
  - intros ->. apply edit_distance_refl.
Qed.

(** X3: the triangle inequality. *)
Theorem levenshtein_distance_triangle s1 s2 s3 :
  calculate_levenshtein_distance s1 s3 <=
  calculate_levenshtein_distance s1 s2 + calculate_levenshtein_distance s2 s3.
Proof.
  rewrite !calculate_levenshtein_distance_spec. apply edit_distance_triangle.
Qed.

End LevenshteinBounds.

(** * The edit distance of sequences *)

Module EditDistanceFacts.
Import EditDistance.

(** The nine ways to drop the first and the last elements of two
    sequences, grouped by the first elements or by the last ones. *)
Lemma min3_exchange a1 b1 c1 a2 b2 c2 a3 b3 c3 d e :
  min3 (min3 (a1 + 1) (b1 + 1) (c1 + d) + 1)
       (min3 (a2 + 1) (b2 + 1) (c2 + d) + 1)
       (min3 (a3 + 1) (b3 + 1) (c3 + d) + e) =
  min3 (min3 (a1 + 1) (a2 + 1) (a3 + e) + 1)
       (min3 (b1 + 1) (b2 + 1) (b3 + e) + 1)
       (min3 (c1 + 1) (c2 + 1) (c3 + e) + d).
Proof.
  unfold min3. rewrite <- !Nat.add_min_distr_r.
  apply Nat.le_antisymm; repeat apply Nat.min_glb; lia.
Qed.

Section Generic.
Context {A : Type} (eqb : A -> A -> bool).
Hypothesis eqb_eq : forall x y, eqb x y = true <-> x = y.

#[local] Arguments distance : simpl never.

Lemma distance_nil_l b : distance eqb [] b = length b.
Proof. reflexivity. Qed.

Lemma distance_nil_r a : distance eqb a [] = length a.
Proof. destruct a; reflexivity. Qed.

Lemma distance_cons x a y b :
  distance eqb (x :: a) (y :: b) =
  min3 (distance eqb a (y :: b) + 1) (distance eqb (x :: a) b + 1)
       (distance eqb a b + differ eqb x y).
Proof. reflexivity. Qed.

Lemma differ_le_1 x y : differ eqb x y <= 1.
Proof. unfold differ. destruct (eqb x y); lia. Qed.

Lemma differ_same x y : eqb x y = true -> differ eqb x y = 0.
Proof. unfold differ. now intros ->. Qed.

Lemma differ_other x y : eqb x y = false -> differ eqb x y = 1.
Proof. unfold differ. now intros ->. Qed.

(** One more element on either side moves the distance by one at most. *)
Lemma distance_cons_l_le x a b :
  distance eqb (x :: a) b <= distance eqb a b + 1.
Proof.
  destruct b as [|y b].
  - rewrite !distance_nil_r. simpl. lia.
  - rewrite distance_cons. unfold min3. lia.
Qed.

Lemma distance_cons_r_le y a b :
  distance eqb a (y :: b) <= distance eqb a b + 1.
Proof.
  destruct a as [|x a].
  - rewrite !distance_nil_l. simpl. lia.
  - rewrite distance_cons. unfold min3. lia.
Qed.

Lemma distance_cons_r_ge a :
  forall y b, distance eqb a b <= distance eqb a (y :: b) + 1.
Proof.
  induction a as [|x a IH]; intros y b.
  - rewrite !distance_nil_l. simpl. lia.
  - rewrite distance_cons.
    pose proof (distance_cons_l_le x a b). pose proof (IH y b).
    unfold min3. lia.
Qed.

Lemma differ_sym x y : differ eqb x y = differ eqb y x.
Proof.
  unfold differ.
  destruct (eqb x y) eqn:Exy; destruct (eqb y x) eqn:Eyx; try reflexivity.
  - apply eqb_eq in Exy. symmetry in Exy. apply eqb_eq in Exy. congruence.
  - apply eqb_eq in Eyx. symmetry in Eyx. apply eqb_eq in Eyx. congruence.
Qed.

Lemma distance_sym a : forall b, distance eqb a b = distance eqb b a.
Proof.
  induction a as [|x a IHa]; intros b.
  - now rewrite distance_nil_r.
  - induction b as [|y b IHb].
    + reflexivity.
    + rewrite !distance_cons, IHb, (IHa (y :: b)), (IHa b), differ_sym.
      unfold min3. lia.
Qed.

Lemma distance_cons_l_ge a x b :
  distance eqb a b <= distance eqb (x :: a) b + 1.
Proof.
  rewrite (distance_sym a b), (distance_sym (x :: a) b).
  apply distance_cons_r_ge.
Qed.

(** With equal first elements the distance is that of the tails. *)
Lemma distance_cons_same x a y b :
  eqb x y = true -> distance eqb (x :: a) (y :: b) = distance eqb a b.
Proof.
  intros E. rewrite distance_cons, (differ_same _ _ E).
  pose proof (distance_cons_r_ge a y b).
  pose proof (distance_cons_l_ge a x b).
  unfold min3. lia.
Qed.

(** The recurrence on the last elements of both sequences. *)
Lemma distance_snoc a :
  forall b x y,
    distance eqb (a ++ [x]) (b ++ [y]) =
    min3 (distance eqb a (b ++ [y]) + 1) (distance eqb (a ++ [x]) b + 1)
         (distance eqb a b + differ eqb x y).
Proof.
  induction a as [|a0 a IHa]; intros b x y.
  - induction b as [|b0 b IHb]; [reflexivity|].
    cbn [app] in *. rewrite (distance_cons x [] b0 (b ++ [y])).
    rewrite IHb. rewrite (distance_cons x [] b0 b).
    rewrite !distance_nil_l, !length_app. cbn [length]. unfold min3. lia.
  - induction b as [|b0 b IHb].
    + specialize (IHa [] x y). cbn [app] in *.
      rewrite (distance_cons a0 (a ++ [x]) y []).
      rewrite IHa. rewrite (distance_cons a0 a y []).
      rewrite !distance_nil_r, !length_app. cbn [length]. unfold min3. lia.
    + pose proof (IHa (b0 :: b) x y) as T1.
      pose proof (IHa b x y) as T3.
      cbn [app] in *.
      rewrite (distance_cons a0 (a ++ [x]) b0 (b ++ [y])).
      rewrite T1, IHb, T3.
      rewrite (distance_cons a0 a b0 (b ++ [y])).
      rewrite (distance_cons a0 (a ++ [x]) b0 b).
      rewrite (distance_cons a0 a b0 b).
      apply min3_exchange.
Qed.

(** The distance of the reversed sequences is the distance of the
    sequences. *)
Lemma distance_rev a : forall b, distance eqb (rev a) (rev b) = distance eqb a b.
Proof.
  induction a as [|x a IHa]; intros b.
  - cbn [rev]. rewrite !distance_nil_l. apply length_rev.
  - induction b as [|y b IHb].
    + cbn [rev] in *. rewrite !distance_nil_r. rewrite <- (length_rev (x :: a)).
      reflexivity.
    + pose proof (IHa (y :: b)) as H1. pose proof (IHa b) as H3.
      cbn [rev] in *. rewrite distance_snoc, H1, IHb, H3.
      now rewrite distance_cons.
Qed.

Lemma distance_refl a : distance eqb a a = 0.
Proof.
  induction a as [|x a IH]; [reflexivity|].
  rewrite distance_cons_same; [exact IH|]. now apply eqb_eq.
Qed.

Lemma distance_zero a : forall b, distance eqb a b = 0 -> a = b.
Proof.
  induction a as [|x a IHa]; intros b.
  - rewrite distance_nil_l. destruct b; [reflexivity|discriminate].
  - destruct b as [|y b]; [rewrite distance_nil_r; discriminate|].
    rewrite distance_cons. unfold min3. intros H.
    assert (Hd : differ eqb x y = 0) by lia.
    unfold differ in Hd. destruct (eqb x y) eqn:E; [|discriminate].
    apply eqb_eq in E. subst y. f_equal. apply IHa. lia.
Qed.

Lemma distance_le_max a :
  forall b, distance eqb a b <= Nat.max (length a) (length b).
Proof.
  induction a as [|x a IHa]; intros b.
  - rewrite distance_nil_l. simpl. lia.
  - destruct b as [|y b].
    + rewrite distance_nil_r. simpl. lia.
    + rewrite distance_cons. specialize (IHa b).
      pose proof (differ_le_1 x y). unfold min3. simpl length. lia.
Qed.

End Generic.

End EditDistanceFacts.

(** * The word error rate *)

Module WerFacts.
Import Characters Levenshtein LevenshteinFacts AccuracyMetrics TableFacts.
Import MetricsFacts EditDistance EditDistanceFacts.

Lemma edit_distance_generic a : forall b, edit_distance a b = distance Ascii.eqb a b.
Proof.
  induction a as [|x a IHa]; intros b; [reflexivity|].
  induction b as [|y b IHb]; [reflexivity|].
  rewrite edit_distance_cons, distance_cons, IHb, !IHa. reflexivity.
Qed.

Lemma word_distance_cons x a y b :
  word_distance (x :: a) (y :: b) =
  if text_eqb x y then word_distance a b
  else 1 + min3 (word_distance a (y :: b)) (word_distance (x :: a) b)
                (word_distance a b).
Proof. reflexivity. Qed.

(** The recurrence of the table, which skips equal words, computes the
    edit distance of the word lists. *)
Lemma word_distance_generic a : forall b, word_distance a b = distance text_eqb a b.
Proof.
  induction a as [|x a IHa]; intros b; [reflexivity|].
  induction b as [|y b IHb]; [reflexivity|].
  rewrite word_distance_cons, IHb, !IHa.
  destruct (text_eqb x y) eqn:E.
  - symmetry. now apply (distance_cons_same text_eqb text_eqb_eq).
  - rewrite distance_cons, (differ_other _ _ _ E). unfold min3. lia.
Qed.

Lemma Qnat_zero n : (Qnat n == 0)%Q -> n = 0.
Proof.
  unfold Qnat, Qeq. simpl. lia.
Qed.

(** A clamped ratio is zero only when the count is zero. *)
Lemma clamped_ratio_zero d len :
  (0 < len)%Q -> (Qmin (Qnat d / len) 1 == 0)%Q -> d = 0.
Proof.
  intros Hlen H.
  assert (Hx : (Qnat d / len == 0)%Q).
  { destruct (Q.min_spec (Qnat d / len) 1) as [[_ E]|[_ E]].
    - now rewrite <- E.
    - rewrite E in H. discriminate. }
  apply Qnat_zero.
  assert (Hlen0 : ~ (len == 0)%Q)
    by (intros E0; rewrite E0 in Hlen; discriminate).
  assert (E : (Qnat d == len * (Qnat d / len))%Q)
    by (symmetry; now apply Qmult_div_r).
  rewrite E, Hx. apply Qmult_0_r.
Qed.

(** X4: the character distance is the edit distance of the two texts, read
    from their first characters on. *)
Theorem levenshtein_is_edit_distance s1 s2 :
  calculate_levenshtein_distance s1 s2 = distance Ascii.eqb s1 s2.
Proof.
  rewrite calculate_levenshtein_distance_spec, edit_distance_generic.
  apply (distance_rev Ascii.eqb).
Qed.

(** X5: the word error rate lies between 0 and 1.  Without reference words it
    is 0 when there is no candidate word and 1 otherwise; with reference
    words it is the edit distance of the two lists of normalized words
    over the number of reference words, or 1 when that is smaller. *)
Theorem calculate_wer_clamped_edit_distance ground_truth predicted :
  let gt_words := split (normalize_text ground_truth) in
  let pred_words := split (normalize_text predicted) in
  (0 <= calculate_wer ground_truth predicted <= 1)%Q /\
  (calculate_wer ground_truth predicted ==
   if is_empty gt_words then (if is_empty pred_words then 0 else 1)
   else Qmin 1 (Qnat (distance text_eqb gt_words pred_words) / Qlen gt_words))%Q.
Proof.
  intros gt_words pred_words. unfold calculate_wer.
  fold gt_words pred_words.
  destruct (is_empty gt_words) eqn:Egt.
  - destruct (is_empty pred_words); split; try reflexivity; split; discriminate.
  - rewrite wer_table_result, word_distance_generic.
    rewrite (distance_rev text_eqb). split.
    + apply clamped_ratio_range; [now apply Qlen_pos | apply Qnat_nonneg].
    + apply Q.min_comm.
Qed.

(** X6: the word error rate is 0 exactly when both texts have the same
    normalized words. *)
Theorem calculate_wer_zero_iff ground_truth predicted :
  (calculate_wer ground_truth predicted == 0)%Q <->
  split (normalize_text ground_truth) = split (normalize_text predicted).
Proof.
  split.
  - unfold calculate_wer.
    destruct (split (normalize_text ground_truth)) as [|g gw] eqn:Egt.
    + destruct (split (normalize_text predicted)); [reflexivity|discriminate].
    + cbn [is_empty]. rewrite wer_table_result, word_distance_generic.
      intros H. apply clamped_ratio_zero in H.
      * apply (distance_zero text_eqb text_eqb_eq) in H.
        rewrite <- (rev_involutive (g :: gw)), H. apply rev_involutive.
      * now apply Qlen_pos.
  - apply wer_same_words.
Qed.

End WerFacts.

(** * Accuracies and the metrics record *)

Module AccuracyFacts.
Import Characters Levenshtein LevenshteinFacts AccuracyMetrics TableFacts.
Import MetricsFacts WerFacts.

Lemma cer_range gt pred : (0 <= calculate_cer gt pred <= 1)%Q.
Proof.
  unfold calculate_cer. destruct (is_empty gt) eqn:Egt.
  - destruct (is_empty pred); split; discriminate.
  - apply clamped_ratio_range; [now apply Qlen_pos | apply Qnat_nonneg].
Qed.

Lemma wer_range gt pred : (0 <= calculate_wer gt pred <= 1)%Q.
Proof.
  unfold calculate_wer.
  destruct (is_empty (split (normalize_text gt))) eqn:Egt.
  - destruct (is_empty (split (normalize_text pred))); split; discriminate.
  - apply clamped_ratio_range; [now apply Qlen_pos | apply Qnat_nonneg].
Qed.

Lemma word_accuracy_range gt pred :
  (0 <= calculate_word_accuracy gt pred <= 100)%Q.
Proof.
  unfold calculate_word_accuracy.
  destruct (is_empty (split (normalize_text gt))) eqn:Egt.
  - destruct (is_empty (split (normalize_text pred))); split; discriminate.
  - pose proof (Qlen_pos _ Egt) as Hpos.
    pose proof (correct_words_le (split (normalize_text gt))
                  (split (normalize_text pred))) as Hle.
    split.
    + apply Qmult_le_0_compat; [|discriminate].
      apply Qle_shift_div_l; [exact Hpos|].
      rewrite Qmult_0_l. apply Qnat_nonneg.
    + setoid_replace 100%Q with (1 * 100)%Q at 2 by reflexivity.
      apply Qmult_le_compat_r; [|discriminate].
      apply Qle_shift_div_r; [exact Hpos|].
      rewrite Qmult_1_l. now apply Qnat_le.
Qed.

Lemma accuracy_formula gt pred :
  (calculate_accuracy gt pred == (1 - calculate_cer gt pred) * 100)%Q.
Proof.
  pose proof (cer_range gt pred) as [_ Hle].
  unfold calculate_accuracy. destruct (is_empty gt) eqn:Egt.
  - unfold calculate_cer. rewrite Egt. destruct (is_empty pred); reflexivity.
  - cbv zeta. apply Q.max_r. apply Qmult_le_0_compat; [|discriminate].
    apply -> Qle_minus_iff in Hle. exact Hle.
Qed.

(** X7: the character accuracy lies between 0 and 100, and is the complement
    of the character error rate, as a percentage, for every pair of texts:
    the lower clamp never acts. *)
Theorem calculate_accuracy_complement gt pred :
  (0 <= calculate_accuracy gt pred <= 100)%Q /\
  (calculate_accuracy gt pred == (1 - calculate_cer gt pred) * 100)%Q.
Proof.
  split; [|apply accuracy_formula].
  rewrite accuracy_formula.
  pose proof (cer_range gt pred) as [H0 H1]. split.
  - apply Qmult_le_0_compat; [|discriminate].
    apply -> Qle_minus_iff in H1. exact H1.
  - setoid_replace 100%Q with (1 * 100)%Q at 2 by reflexivity.
    apply Qmult_le_compat_r; [|discriminate].
    apply Qle_minus_iff. ring_simplify. exact H0.
Qed.

Lemma cer_zero_eq gt pred : (calculate_cer gt pred == 0)%Q -> gt = pred.
Proof.
  unfold calculate_cer. destruct gt as [|c gt].
  - destruct pred; [reflexivity|discriminate].
  - cbn [is_empty]. intros H. apply clamped_ratio_zero in H.
    + now apply levenshtein_zero_eq.
    + now apply Qlen_pos.
Qed.

(** X8: in exact arithmetic the character accuracy is 100 for equal texts and
    for them only. *)
Theorem calculate_accuracy_full_iff gt pred :
  (calculate_accuracy gt pred == 100)%Q <-> gt = pred.
Proof.
  rewrite accuracy_formula. split.
  - intros H. apply cer_zero_eq.
    assert (E : (calculate_cer gt pred ==
                 1 - (1 - calculate_cer gt pred) * 100 / 100)%Q) by field.
    rewrite E, H. reflexivity.
  - intros ->. rewrite cer_same. reflexivity.
Qed.

(** *** Rounding *)

Lemma round_half_even_between lo hi q :
  (inject_Z lo <= q <= inject_Z hi)%Q ->
  (lo <= round_half_even q <= hi)%Z.
Proof.
  destruct q as [n d]. unfold Qle, inject_Z, round_half_even.
  cbn [Qnum Qden]. intros [Hlo Hhi].
  pose proof (Z.div_mod n (Zpos d) ltac:(lia)) as Hdm.
  pose proof (Z.mod_pos_bound n (Zpos d) ltac:(lia)) as Hr.
  set (f := (n / Zpos d)%Z) in *. set (r := (n mod Zpos d)%Z) in *.
  assert (Hf : (lo <= f)%Z) by nia.
  assert (Hf' : (f <= hi)%Z) by nia.
  destruct (2 * r ?= Zpos d)%Z eqn:C.
  - apply Z.compare_eq in C. destruct (Z.even f); [lia|]. nia.
  - lia.
  - apply Z.compare_gt_iff in C. nia.
Qed.

Lemma round2_between lo hi q :
  (inject_Z lo <= q <= inject_Z hi)%Q ->
  (inject_Z lo <= round2 q <= inject_Z hi)%Q.
Proof.
  intros [Hlo Hhi].
  assert (H : (lo * 100 <= round_half_even (q * 100) <= hi * 100)%Z).
  { apply round_half_even_between. rewrite !inject_Z_mult. split.
    - apply Qmult_le_compat_r; [exact Hlo|discriminate].
    - apply Qmult_le_compat_r; [exact Hhi|discriminate]. }
  destruct H as [H1 H2]. unfold round2. split.
  - apply Qle_shift_div_l; [reflexivity|].
    change 100%Q with (inject_Z 100). rewrite <- inject_Z_mult.
    now rewrite <- Zle_Qle.
  - apply Qle_shift_div_r; [reflexivity|].
    change 100%Q with (inject_Z 100). rewrite <- inject_Z_mult.
    now rewrite <- Zle_Qle.
Qed.

Lemma round2_percentage q : (0 <= q <= 100)%Q -> (0 <= round2 q <= 100)%Q.
Proof. apply (round2_between 0 100). Qed.

Lemma round2_of_0 q : (q == 0)%Q -> (round2 q == 0)%Q.
Proof.
  intros E. apply Qle_antisym; apply (round2_between 0 0 q);
    rewrite E; split; discriminate.
Qed.

Lemma round2_of_100 q : (q == 100)%Q -> (round2 q == 100)%Q.
Proof.
  intros E. apply Qle_antisym; apply (round2_between 100 100 q);
    rewrite E; split; discriminate.
Qed.

Lemma rate_as_percentage q : (0 <= q <= 1)%Q -> (0 <= q * 100 <= 100)%Q.
Proof.
  intros [H0 H1]. split.
  - apply Qmult_le_0_compat; [exact H0|discriminate].
  - setoid_replace 100%Q with (1 * 100)%Q at 2 by reflexivity.
    apply Qmult_le_compat_r; [exact H1|discriminate].
Qed.

(** X9: every percentage of a metrics record lies between 0 and 100, and its
    distance between the difference and the greater of its two lengths. *)
Theorem get_detailed_metrics_ranges gt pred :
  let m := get_detailed_metrics gt pred in
  (0 <= character_error_rate m <= 100)%Q /\
  (0 <= word_error_rate m <= 100)%Q /\
  (0 <= character_accuracy m <= 100)%Q /\
  (0 <= word_accuracy m <= 100)%Q /\
  ground_truth_length m - predicted_length m <= levenshtein_distance m /\
  predicted_length m - ground_truth_length m <= levenshtein_distance m /\
  levenshtein_distance m <=
    Nat.max (ground_truth_length m) (predicted_length m).
Proof.
  cbv zeta. unfold get_detailed_metrics.
  cbn [character_error_rate word_error_rate character_accuracy word_accuracy
       levenshtein_distance ground_truth_length predicted_length].
  split; [|split; [|split; [|split]]].
  - apply round2_percentage, rate_as_percentage, cer_range.
  - apply round2_percentage, rate_as_percentage, wer_range.
  - apply round2_percentage. rewrite accuracy_formula.
    pose proof (cer_range gt pred) as [H0 H1]. split.
    + apply Qmult_le_0_compat; [|discriminate].
      apply -> Qle_minus_iff in H1. exact H1.
    + setoid_replace 100%Q with (1 * 100)%Q at 2 by reflexivity.
      apply Qmult_le_compat_r; [|discriminate].
      apply Qle_minus_iff. ring_simplify. exact H0.
  - apply round2_percentage, word_accuracy_range.
  - rewrite calculate_levenshtein_distance_spec.
    pose proof (LevenshteinBounds.edit_distance_ge_diff (rev gt) (rev pred))
      as [H1 H2].
    pose proof (LevenshteinBounds.edit_distance_le_max (rev gt) (rev pred))
      as H3.
    rewrite !length_rev in *. auto.
Qed.

(** X10: a text scored against itself has no error: both error rates are 0,
    both accuracies are 100 and the distance is 0. *)
Theorem get_detailed_metrics_identical s :
  let m := get_detailed_metrics s s in
  (character_error_rate m == 0)%Q /\
  (word_error_rate m == 0)%Q /\
  (character_accuracy m == 100)%Q /\
  (word_accuracy m == 100)%Q /\
  levenshtein_distance m = 0 /\
  ground_truth_length m = predicted_length m /\
  ground_truth_word_count m = predicted_word_count m.
Proof.
  cbv zeta. unfold get_detailed_metrics.
  cbn [character_error_rate word_error_rate character_accuracy word_accuracy
       levenshtein_distance ground_truth_length predicted_length
       ground_truth_word_count predicted_word_count].
  split; [|split; [|split; [|split; [|split; [|split]]]]]; try reflexivity.
  - apply round2_of_0. rewrite cer_same. reflexivity.
  - apply round2_of_0. rewrite wer_same_words by reflexivity. reflexivity.
  - apply round2_of_100. rewrite accuracy_formula, cer_same. reflexivity.
  - apply round2_of_100. now apply word_accuracy_same_words.
  - apply levenshtein_refl.
Qed.

(** *** Word accuracy and trailing words *)

Lemma correct_words_cons g gw p pw :
  correct_words (g :: gw) (p :: pw) =
  (if text_eqb g p then 1 else 0) + correct_words gw pw.
Proof.
  unfold correct_words. cbn [combine filter fst snd].
  now destruct (text_eqb g p).
Qed.

Lemma correct_words_full gw :
  forall pw, correct_words gw pw = length gw <-> exists rest, pw = gw ++ rest.
Proof.
  induction gw as [|g gw IH]; intros pw.
  - split; [intros _; now exists pw | reflexivity].
  - destruct pw as [|p pw].
    + split; [discriminate | intros [rest H]; discriminate].
    + rewrite correct_words_cons. pose proof (correct_words_le gw pw) as Hle.
      cbn [length]. destruct (text_eqb g p) eqn:E.
      * apply text_eqb_eq in E. subst p. split.
        -- intros H. destruct (proj1 (IH pw)) as [rest Hrest]; [lia|].
           exists rest. now rewrite Hrest.
        -- intros [rest H]. injection H as H.
           assert (Hc : correct_words gw pw = length gw)
             by (apply IH; now exists rest).
           lia.
      * split; [lia|]. intros [rest H]. injection H as Hg _.
        subst p. rewrite text_eqb_refl in E. discriminate.
Qed.

Lemma full_ratio c len :
  (0 < Qnat len)%Q -> (Qnat c / Qnat len * 100 == 100)%Q -> c = len.
Proof.
  intros Hpos H.
  assert (Hne : ~ (Qnat len == 0)%Q)
    by (intros E0; rewrite E0 in Hpos; discriminate).
  assert (E : (Qnat c == Qnat len * (Qnat c / Qnat len * 100 / 100))%Q)
    by (field; exact Hne).
  rewrite H in E.
  assert (E' : (Qnat c == Qnat len)%Q) by (rewrite E; field).
  unfold Qnat, Qeq in E'. simpl in E'. lia.
Qed.

(** X11: with at least one reference word, the word accuracy is 100 exactly
    when the normalized reference words are the first words of the
    candidate: further words of the candidate cost nothing. *)
Theorem word_accuracy_full_iff_prefix gt pred :
  is_empty (split (normalize_text gt)) = false ->
  (calculate_word_accuracy gt pred == 100)%Q <->
  exists rest,
    split (normalize_text pred) = split (normalize_text gt) ++ rest.
Proof.
  intros Hne. unfold calculate_word_accuracy. rewrite Hne.
  rewrite <- correct_words_full. split.
  - intros H. apply full_ratio in H; [exact H|]. now apply Qlen_pos.
  - intros ->. pose proof (Qlen_pos _ Hne) as Hpos.
    change (Qnat (length (split (normalize_text gt))))
      with (Qlen (split (normalize_text gt))).
    field. intros H0. rewrite H0 in Hpos. discriminate.
Qed.

Lemma word_accuracy_full_iff_prefix_witness :
  is_empty (split (normalize_text (str "Hello World"))) = false /\
  (calculate_word_accuracy (str "Hello World") (str "hello world again")
   == 100)%Q.
Proof.
  assert (Hne : is_empty (split (normalize_text (str "Hello World"))) = false)
    by reflexivity.
  split; [exact Hne|].
  apply (proj2 (word_accuracy_full_iff_prefix (str "Hello World")
                  (str "hello world again") Hne)).
  exists [str "again"]. vm_compute. reflexivity.
Defined.

End AccuracyFacts.

(** * Ranking *)

Module RankingFacts.
Import Characters AccuracyMetrics EngineRanker RankerFacts RankingExamples.

Lemma score_result_idempotent gt r :
  score_result gt (score_result gt r) = score_result gt r.
Proof.
  unfold score_result.
  destruct (get_success r) eqn:Es; [|now rewrite Es].
  destruct (r_text r) as [t|] eqn:Et; [|now rewrite Es, Et].
  unfold get_success in *. cbn [with_metrics r_success r_text].
  now rewrite Es, Et.
Qed.

Lemma sort_descending_fixes_sorted {A : Type} (key : A -> Q) l :
  StronglySorted (fun a b => (key b <= key a)%Q) l ->
  sort_descending key l = l.
Proof.
  induction 1 as [|x l Hsorted IH Hall]; [reflexivity|].
  cbn [sort_descending fold_right]. fold (sort_descending key l).
  rewrite IH. destruct l as [|y l]; [reflexivity|].
  cbn [insert_descending].
  apply Forall_inv in Hall. apply Qle_bool_iff in Hall. now rewrite Hall.
Qed.

(** Two sorted lists with the same elements are the same list when equal
    keys are carried by equal elements only. *)
Lemma sorted_permutation_unique {A : Type} (key : A -> Q) l1 :
  forall l2,
    StronglySorted (fun a b => (key b <= key a)%Q) l1 ->
    StronglySorted (fun a b => (key b <= key a)%Q) l2 ->
    Permutation l1 l2 ->
    (forall x y, In x l1 -> In y l1 -> (key x == key y)%Q -> x = y) ->
    l1 = l2.
Proof.
  induction l1 as [|x t1 IH]; intros l2 S1 S2 Hperm Hinj.
  - apply Permutation_nil in Hperm. now subst.
  - destruct l2 as [|y t2].
    + apply Permutation_sym, Permutation_nil in Hperm. discriminate.
    + apply StronglySorted_inv in S1. destruct S1 as [S1 A1].
      apply StronglySorted_inv in S2. destruct S2 as [S2 A2].
      rewrite Forall_forall in A1, A2.
      assert (Hx : In x (y :: t2))
        by (apply (Permutation_in _ Hperm); now left).
      assert (Hy : In y (x :: t1))
        by (apply (Permutation_in _ (Permutation_sym Hperm)); now left).
      assert (Hxy : (key x <= key y)%Q).
      { destruct Hx as [<-|Hx]; [apply Qle_refl | now apply A2]. }
      assert (Hyx : (key y <= key x)%Q).
      { destruct Hy as [<-|Hy]; [apply Qle_refl | now apply A1]. }
      assert (E : x = y).
      { apply Hinj; [now left | exact Hy | now apply Qle_antisym]. }
      subst y. f_equal. apply IH; try assumption.
      * now apply Permutation_cons_inv in Hperm.
      * intros a b Ha Hb. apply Hinj; now right.
Qed.

(** X16: the first result returned has the greatest character accuracy of
    all, a missing metrics record counting as 0. *)
Theorem compare_engines_best_first gt rs :
  match compare_engines gt rs with
  | [] => rs = []
  | best :: others =>
      Forall (fun r => (sort_key r <= sort_key best)%Q) (best :: others)
  end.
Proof.
  pose proof (sort_descending_sorted sort_key (map (score_result gt) rs))
    as Hsorted.
  pose proof (compare_engines_perm gt rs) as Hperm.
  unfold compare_engines in *.
  destruct (sort_descending sort_key (map (score_result gt) rs))
    as [|best others].
  - apply Permutation_nil in Hperm. now destruct rs.
  - apply StronglySorted_inv in Hsorted. destruct Hsorted as [_ Hall].
    constructor; [apply Qle_refl | exact Hall].
Qed.

(** X17: ranking a ranking again changes nothing. *)
Theorem compare_engines_idempotent gt rs :
  compare_engines gt (compare_engines gt rs) = compare_engines gt rs.
Proof.
  pose proof (compare_engines_perm gt rs) as Hperm.
  unfold compare_engines at 1.
  assert (E : map (score_result gt) (compare_engines gt rs) =
              compare_engines gt rs).
  { rewrite <- (map_id (compare_engines gt rs)) at 2.
    apply map_ext_in. intros x Hx.
    apply (Permutation_in _ Hperm) in Hx. apply in_map_iff in Hx.
    destruct Hx as (r & <- & _). apply score_result_idempotent. }
  rewrite E. apply sort_descending_fixes_sorted.
  apply sort_descending_sorted.
Qed.

(** X18: when results of equal sort key are equal results, the ranking does
    not depend on the order of the input. *)
Theorem compare_engines_order_independent gt rs rs' :
  Permutation rs rs' ->
  (forall x y, In x (map (score_result gt) rs) ->
               In y (map (score_result gt) rs) ->
               (sort_key x == sort_key y)%Q -> x = y) ->
  compare_engines gt rs = compare_engines gt rs'.
Proof.
  intros Hperm Hinj.
  apply (sorted_permutation_unique sort_key).
  - apply sort_descending_sorted.
  - apply sort_descending_sorted.
  - rewrite (compare_engines_perm gt rs), (compare_engines_perm gt rs').
    now apply Permutation_map.
  - intros x y Hx Hy.
    apply Hinj; apply (Permutation_in _ (compare_engines_perm gt rs));
      assumption.
Qed.

Lemma compare_engines_order_independent_witness :
  Permutation [wrong_result; right_result] [right_result; wrong_result] /\
  compare_engines (str "a") [wrong_result; right_result] =
  compare_engines (str "a") [right_result; wrong_result].
Proof.
  assert (Hperm : Permutation [wrong_result; right_result]
                    [right_result; wrong_result]) by apply perm_swap.
  split; [exact Hperm|].
  apply (compare_engines_order_independent (str "a") _ _ Hperm).
  intros x y [<-|[<-|[]]] [<-|[<-|[]]] H; try reflexivity;
    vm_compute in H; discriminate H.
Defined.

End RankingFacts.

(** * The cache: lookups and the order of eviction *)

Module CacheLookupFacts.
Import Characters SmartCorrection TextRecognizer TableFacts CacheFacts.
Import CacheExamples.

(** Storing a new key leaves the cache, or its tail, followed by the new
    entry. *)
Lemma cache_store_shape k v c :
  dict_contains k c = false ->
  cache_store k v c = c ++ [(k, v)] \/ cache_store k v c = tl c ++ [(k, v)].
Proof.
  intros Hk. unfold cache_store. cbv zeta.
  rewrite dict_set_absent by exact Hk.
  destruct (100 <? length (c ++ [(k, v)])) eqn:E; [|now left].
  destruct c as [|[k0 v0] c']; [discriminate E|]. right.
  cbn [app tl]. apply (dict_del_first k0 v0).
Qed.

Lemma dict_contains_tl k c :
  dict_contains k c = false -> dict_contains k (tl c) = false.
Proof.
  destruct c as [|kv c]; [easy|]. simpl. intros H.
  now apply orb_false_iff in H.
Qed.

Lemma dict_get_last k v c :
  dict_contains k c = false ->
  dict_get k (c ++ [(k, v)]) = Some v /\
  dict_contains k (c ++ [(k, v)]) = true.
Proof.
  intros Hk. unfold dict_get, dict_contains in *.
  induction c as [|[k' v'] c IH]; simpl in *.
  - now rewrite text_eqb_refl.
  - apply orb_false_iff in Hk. destruct Hk as [Hk' Hc].
    rewrite Hk'. simpl. now apply IH.
Qed.

Lemma cache_store_lookup k v c :
  dict_contains k c = false ->
  dict_get k (cache_store k v c) = Some v /\
  dict_contains k (cache_store k v c) = true.
Proof.
  intros Hk. destruct (cache_store_shape k v c Hk) as [-> | ->].
  - now apply dict_get_last.
  - apply dict_get_last. now apply dict_contains_tl.
Qed.

(** X19: a second call for the same image returns the text of the first one
    and leaves the cache as it is, whatever the model would generate. *)
Theorem recognize_text_repeated k g g' c :
  recognize_text k g' (snd (recognize_text k g c)) =
  (fst (recognize_text k g c), snd (recognize_text k g c)).
Proof.
  unfold recognize_text at 2 3 4.
  destruct (dict_contains k c) eqn:Hk; cbn [fst snd].
  - unfold recognize_text. now rewrite Hk.
  - cbv zeta. cbn [fst snd].
    destruct (cache_store_lookup k
                (best_result (smart_correct (strip g))) c Hk) as [Hget Hin].
    unfold recognize_text. now rewrite Hin, Hget.
Qed.

Lemma keys_app c1 c2 : keys (c1 ++ c2) = keys c1 ++ keys c2.
Proof. apply map_app. Qed.

Lemma NoDup_keys_snoc k v c :
  NoDup (keys c) -> dict_contains k c = false -> NoDup (keys (c ++ [(k, v)])).
Proof.
  intros Hnd Hk. rewrite keys_app. cbn.
  apply NoDup_app; [exact Hnd | repeat constructor; easy |].
  intros x Hx [<-|[]]. apply dict_contains_keys in Hx. congruence.
Qed.

Lemma NoDup_keys_tl c : NoDup (keys c) -> NoDup (keys (tl c)).
Proof.
  destruct c as [|kv c]; [easy|]. cbn. now inversion 1.
Qed.

Lemma recognize_text_keeps_keys_distinct k g c :
  NoDup (keys c) -> NoDup (keys (snd (recognize_text k g c))).
Proof.
  intros Hnd. unfold recognize_text.
  destruct (dict_contains k c) eqn:Hk; cbn [snd]; [exact Hnd|].
  destruct (cache_store_shape k (best_result (smart_correct (strip g))) c Hk)
    as [-> | ->].
  - now apply NoDup_keys_snoc.
  - apply NoDup_keys_snoc; [now apply NoDup_keys_tl|].
    now apply dict_contains_tl.
Qed.

Lemma run_requests_keeps_keys_distinct requests :
  forall c, NoDup (keys c) -> NoDup (keys (run_requests requests c)).
Proof.
  unfold run_requests.
  induction requests as [|req requests IH]; intros c Hc; [exact Hc|].
  cbn [fold_left]. apply IH. now apply recognize_text_keeps_keys_distinct.
Qed.

(** X20: whatever the calls, the keys of the cache are pairwise distinct. *)
Theorem cache_keys_distinct requests :
  NoDup (keys (run_requests requests [])).
Proof. apply run_requests_keeps_keys_distinct. constructor. Qed.

(** X21: reading an entry does not renew it: when the cache is full, the call
    for a new image evicts the oldest entry even if that entry has just
    been returned. *)
Theorem cache_hit_does_not_refresh k0 v0 c k g g0 :
  length ((k0, v0) :: c) = 100 ->
  dict_contains k ((k0, v0) :: c) = false ->
  fst (recognize_text k0 g0 ((k0, v0) :: c)) = v0 /\
  snd (recognize_text k g (snd (recognize_text k0 g0 ((k0, v0) :: c)))) =
    c ++ [cache_entry (k, g)].
Proof.
  intros Hlen Hk.
  assert (Hhit : recognize_text k0 g0 ((k0, v0) :: c) = (v0, (k0, v0) :: c)).
  { unfold recognize_text, dict_contains, dict_get. cbn [existsb find fst snd].
    now rewrite text_eqb_refl. }
  rewrite Hhit. cbn [fst snd]. split; [reflexivity|].
  rewrite recognize_text_miss by exact Hk.
  now rewrite cache_store_full.
Qed.

Lemma cache_hit_does_not_refresh_witness :
  length full_cache = 100 /\
  dict_contains [ascii_of_nat 100] full_cache = false /\
  dict_contains [ascii_of_nat 0]
    (snd (recognize_text [ascii_of_nat 100] (str "Hello")
            (snd (recognize_text [ascii_of_nat 0] (str "Hello") full_cache))))
  = false.
Proof.
  assert (Hlen : length full_cache = 100) by (vm_compute; reflexivity).
  assert (Hk : dict_contains [ascii_of_nat 100] full_cache = false)
    by (vm_compute; reflexivity).
  split; [exact Hlen|]. split; [exact Hk|].
  destruct full_cache as [|[k0 v0] c] eqn:E; [discriminate|].
  assert (Hk0 : k0 = [ascii_of_nat 0]).
  { assert (H : hd ([], []) full_cache = (k0, v0)) by now rewrite E.
    vm_compute in H. now injection H as <- _. }
  destruct (cache_hit_does_not_refresh k0 v0 c [ascii_of_nat 100]
              (str "Hello") (str "Hello") Hlen Hk) as [_ Hevict].
  subst k0. rewrite Hevict.
  assert (Hnd : NoDup (keys full_cache)) by (apply run_requests_keeps_keys_distinct; constructor).
  rewrite E in Hnd. cbn in Hnd. apply NoDup_cons_iff in Hnd.
  destruct Hnd as [Hnot _].
  apply dict_contains_false. rewrite keys_app. cbn.
  intros Hin. apply in_app_or in Hin. destruct Hin as [Hin|[Hin|[]]].
  - now apply Hnot.
  - apply (f_equal (fun l => match l with c :: _ => nat_of_ascii c | [] => 0 end))
      in Hin. vm_compute in Hin. discriminate.
Defined.

End CacheLookupFacts.

(** * Normalization *)

Module NormalizeFacts.
Import Characters Re AccuracyMetrics WhiteSpace TableFacts.

(** A greedy repetition whose continuation accepts every end takes the
    whole run, up to the bound. *)
Lemma repeat_class_takes_run {R : Type} (p : ascii -> bool) (g : nat -> R) more :
  forall lo cur,
    repeat_class p lo more cur (fun cur' => Some (g (pos cur'))) =
    if lo <=? Nat.min more (run_length p (rest cur))
    then Some (g (pos cur + Nat.min more (run_length p (rest cur))))
    else None.
Proof.
  induction more as [|more IH]; intros lo cur.
  - cbn [repeat_class Nat.min]. rewrite Nat.add_0_r.
    destruct lo; reflexivity.
  - cbn [repeat_class]. destruct (rest cur) as [|c t] eqn:Erest.
    + cbn [run_length]. rewrite Nat.min_0_r, Nat.add_0_r.
      destruct lo; reflexivity.
    + cbn [run_length]. destruct (p c) eqn:Ep.
      * rewrite IH. cbn [advance pos rest].
        rewrite <- Nat.succ_min_distr.
        set (n := Nat.min more (run_length p t)).
        destruct lo as [|lo].
        -- cbn [pred Nat.leb]. f_equal. f_equal. lia.
        -- cbn [pred]. change (S lo <=? S n) with (lo <=? n).
           destruct (lo <=? n); [f_equal; f_equal; lia | reflexivity].
      * rewrite Nat.min_0_r, Nat.add_0_r. destruct lo; reflexivity.
Qed.

Lemma run_length_le p t : run_length p t <= length t.
Proof.
  induction t as [|c t IH]; simpl; [lia|]. destruct (p c); simpl; lia.
Qed.

(** A match of [\s+] at a position is the run of white space there. *)
Lemma match_at_spaces prev i t :
  match_at PATTERN_SPACES (mkCursor prev i t) =
  if 1 <=? run_length isspace t
  then Some (mkMatch i (i + run_length isspace t) [])
  else None.
Proof.
  unfold match_at, PATTERN_SPACES. cbn [match_here rest pos].
  rewrite (repeat_class_takes_run isspace (fun e => mkMatch i e [])).
  cbn [rest pos].
  now rewrite (Nat.min_r _ _ (run_length_le isspace t)).
Qed.

Lemma slice_all_after t from : slice t from (length t) = skipn from t.
Proof.
  unfold slice. apply firstn_all2. rewrite length_skipn. lia.
Qed.

Lemma slice_snoc pre c r from :
  from <= length pre ->
  slice (pre ++ c :: r) from (S (length pre)) =
  slice (pre ++ c :: r) from (length pre) ++ [c].
Proof.
  intros H. unfold slice.
  rewrite !skipn_app.
  replace (from - length pre) with 0 by lia. cbn [skipn].
  rewrite !firstn_app, length_skipn.
  replace (length pre - from - (length pre - from)) with 0 by lia.
  replace (S (length pre) - from - (length pre - from)) with 1 by lia.
  cbn [firstn]. rewrite app_nil_r.
  rewrite !firstn_all2 by (rewrite length_skipn; lia). reflexivity.
Qed.

Lemma collapse_spaces_in_run t :
  collapse_spaces true t =
  collapse_spaces false (skipn (run_length isspace t) t).
Proof.
  induction t as [|c t IH]; [reflexivity|].
  cbn [collapse_spaces run_length]. destruct (isspace c) eqn:E.
  - cbn [skipn]. exact IH.
  - cbn [skipn collapse_spaces]. now rewrite E.
Qed.

(** The scan for [\s+], followed by the replacement of its matches by a
    space, is [collapse_spaces]. *)
Lemma replace_spaces_scan t rest :
  forall pre prev,
    t = pre ++ rest ->
    (forall from, from <= length pre ->
       replace_matches t from
         (scan PATTERN_SPACES prev (length pre) rest 0)
         (fun _ => [" "%char])
       = slice t from (length pre) ++ collapse_spaces false rest) /\
    (forall skip,
       replace_matches t (length pre + skip)
         (scan PATTERN_SPACES prev (length pre) rest skip)
         (fun _ => [" "%char])
       = collapse_spaces false (skipn skip rest)).
Proof.
  induction rest as [|c r IH]; intros pre prev Ht.
  - assert (Ha : forall from, from <= length pre ->
       replace_matches t from (scan PATTERN_SPACES prev (length pre) [] 0)
         (fun _ => [" "%char])
       = slice t from (length pre) ++ collapse_spaces false []).
    { intros from Hfrom. cbn [scan]. rewrite match_at_spaces.
      cbn [run_length Nat.leb replace_matches collapse_spaces].
      rewrite app_nil_r. subst t. rewrite app_nil_r.
      symmetry. apply slice_all_after. }
    split; [exact Ha|].
    intros [|skip].
    + rewrite Nat.add_0_r, Ha by lia. unfold slice.
      rewrite Nat.sub_diag. reflexivity.
    + cbn [scan replace_matches skipn collapse_spaces].
      apply skipn_all2. subst t. rewrite app_nil_r. lia.
  - assert (Ht' : t = (pre ++ [c]) ++ r) by (now rewrite <- app_assoc).
    assert (Hlen : length (pre ++ [c]) = S (length pre))
      by (rewrite length_app; simpl; lia).
    destruct (IH (pre ++ [c]) (Some c) Ht') as [IHa IHb].
    rewrite Hlen in IHa, IHb.
    assert (Ha : forall from, from <= length pre ->
       replace_matches t from
         (scan PATTERN_SPACES prev (length pre) (c :: r) 0)
         (fun _ => [" "%char])
       = slice t from (length pre) ++ collapse_spaces false (c :: r)).
    { intros from Hfrom. cbn [scan]. rewrite match_at_spaces.
      cbn [run_length collapse_spaces]. destruct (isspace c) eqn:Ec.
      - cbn [Nat.leb replace_matches m_start m_end].
        replace (length pre + S (run_length isspace r) - length pre - 1)
          with (run_length isspace r) by lia.
        replace (length pre + S (run_length isspace r))
          with (S (length pre) + run_length isspace r) by lia.
        rewrite IHb, collapse_spaces_in_run. reflexivity.
      - cbn [Nat.leb]. rewrite IHa by lia.
        subst t. rewrite slice_snoc by exact Hfrom.
        now rewrite <- app_assoc. }
    split; [exact Ha|].
    intros [|skip].
    + rewrite Nat.add_0_r, Ha by lia. unfold slice.
      rewrite Nat.sub_diag. reflexivity.
    + cbn [scan skipn].
      replace (length pre + S skip) with (S (length pre) + skip) by lia.
      apply IHb.
Qed.

Lemma sub_spaces t : sub PATTERN_SPACES [" "%char] t = collapse_spaces false t.
Proof.
  unfold sub, sub_with, finditer.
  destruct (replace_spaces_scan t t [] None eq_refl) as [Ha _].
  apply (Ha 0). cbn. lia.
Qed.

Lemma isspace_space : isspace " "%char = true.
Proof. reflexivity. Qed.

(** *** Splitting into words *)

Lemma split_from_collapse t :
  (forall w, split_from w (collapse_spaces false t) = split_from w t) /\
  split_from [] (collapse_spaces true t) = split_from [] t.
Proof.
  induction t as [|c t [IHf IHt]]; [split; reflexivity|].
  cbn [collapse_spaces]. destruct (isspace c) eqn:Ec.
  - split.
    + intros w. cbn [split_from]. rewrite isspace_space, Ec, IHt. reflexivity.
    + cbn [split_from]. rewrite Ec. cbn [is_empty]. exact IHt.
  - split.
    + intros w. cbn [split_from]. rewrite Ec. apply IHf.
    + cbn [split_from]. rewrite Ec. apply IHf.
Qed.

Lemma split_lstrip t : split (lstrip t) = split t.
Proof.
  unfold split. induction t as [|c t IH]; [reflexivity|].
  cbn [lstrip split_from]. destruct (isspace c) eqn:Ec; [exact IH|].
  cbn [split_from]. now rewrite Ec.
Qed.

Lemma split_from_spaces ws :
  Forall (fun c => isspace c = true) ws ->
  forall w, split_from w ws = if is_empty w then [] else [w].
Proof.
  induction 1 as [|c ws Hc _ IH]; intros w; [reflexivity|].
  cbn [split_from]. rewrite Hc, (IH []). reflexivity.
Qed.

Lemma split_from_trailing_spaces ws t :
  Forall (fun c => isspace c = true) ws ->
  forall w, split_from w (t ++ ws) = split_from w t.
Proof.
  intros Hws. induction t as [|c t IH]; intros w.
  - cbn [app split_from]. now apply split_from_spaces.
  - cbn [app split_from]. destruct (isspace c); now rewrite !IH.
Qed.

(** The white space that [lstrip] removes. *)
Lemma lstrip_decompose t :
  exists ws, t = ws ++ lstrip t /\ Forall (fun c => isspace c = true) ws.
Proof.
  induction t as [|c t (ws & E & Hws)].
  - now exists [].
  - cbn [lstrip]. destruct (isspace c) eqn:Ec.
    + exists (c :: ws). split; [cbn; now f_equal | now constructor].
    + now exists [].
Qed.

(** The white space that [strip] removes. *)
Lemma strip_decompose t :
  exists ws1 ws2,
    t = ws1 ++ strip t ++ ws2 /\
    Forall (fun c => isspace c = true) ws1 /\
    Forall (fun c => isspace c = true) ws2.
Proof.
  destruct (lstrip_decompose t) as (ws1 & E1 & H1).
  destruct (lstrip_decompose (rev (lstrip t))) as (ws2 & E2 & H2).
  exists ws1, (rev ws2). split; [|split].
  - unfold strip.
    assert (E3 : lstrip t = rev (lstrip (rev (lstrip t))) ++ rev ws2).
    { rewrite <- rev_app_distr, <- E2. symmetry. apply rev_involutive. }
    rewrite <- E3. exact E1.
  - exact H1.
  - now apply Forall_rev.
Qed.

Lemma split_from_leading_spaces ws x :
  Forall (fun c => isspace c = true) ws ->
  split_from [] (ws ++ x) = split_from [] x.
Proof.
  induction 1 as [|c ws Hc _ IH]; [reflexivity|].
  cbn [app split_from]. rewrite Hc. cbn [is_empty]. exact IH.
Qed.

Lemma split_strip t : split (strip t) = split t.
Proof.
  destruct (strip_decompose t) as (ws1 & ws2 & E & H1 & H2).
  rewrite E at 2. unfold split.
  rewrite split_from_leading_spaces by exact H1.
  symmetry. now apply split_from_trailing_spaces.
Qed.

Lemma normalize_text_words_helper t :
  split (normalize_text t) = split (lower t).
Proof.
  unfold normalize_text. rewrite split_strip, sub_spaces.
  unfold split. apply split_from_collapse.
Qed.

(** X12: the words of a normalized text are the words of the text in lower
    case: collapsing the white space and stripping the ends change no
    word. *)
Theorem normalize_text_words t : split (normalize_text t) = split (lower t).
Proof. apply normalize_text_words_helper. Qed.

Lemma wer_by_words a b a' b' :
  split (normalize_text a) = split (normalize_text a') ->
  split (normalize_text b) = split (normalize_text b') ->
  calculate_wer a b = calculate_wer a' b' /\
  calculate_word_accuracy a b = calculate_word_accuracy a' b'.
Proof.
  intros Ea Eb. unfold calculate_wer, calculate_word_accuracy.
  now rewrite Ea, Eb.
Qed.

(** X15: the two word metrics see their arguments through the words of the
    lower-cased texts only: when the lower-cased references have the same
    words and the lower-cased candidates have the same words, the word
    error rate is the same and the word accuracy is the same. *)
Theorem word_metrics_ignore_case_and_spacing a b a' b' :
  split (lower a) = split (lower a') ->
  split (lower b) = split (lower b') ->
  calculate_wer a b = calculate_wer a' b' /\
  calculate_word_accuracy a b = calculate_word_accuracy a' b'.
Proof.
  intros Ea Eb. apply wer_by_words; now rewrite !normalize_text_words_helper.
Qed.

Lemma word_metrics_ignore_case_and_spacing_witness :
  split (lower (str "Hello   World ")) = split (lower (str "hello world")) /\
  split (lower (str " HELO world")) = split (lower (str "helo  World")) /\
  calculate_wer (str "Hello   World ") (str " HELO world") =
  calculate_wer (str "hello world") (str "helo  World").
Proof.
  assert (Ha : split (lower (str "Hello   World ")) =
               split (lower (str "hello world"))) by reflexivity.
  assert (Hb : split (lower (str " HELO world")) =
               split (lower (str "helo  World"))) by reflexivity.
  split; [exact Ha|]. split; [exact Hb|].
  exact (proj1 (word_metrics_ignore_case_and_spacing _ _ _ _ Ha Hb)).
Defined.

(** *** The normalized text is its words joined by single spaces *)

Lemma single_spaced_collapse t :
  forall b, single_spaced b (collapse_spaces b t) = true.
Proof.
  induction t as [|c t IH]; intros b; [reflexivity|].
  cbn [collapse_spaces]. destruct (isspace c) eqn:Ec.
  - destruct b; [apply IH|].
    cbn [single_spaced]. rewrite isspace_space. cbn. apply IH.
  - cbn [single_spaced]. rewrite Ec. apply IH.
Qed.

Lemma single_spaced_lstrip v :
  forall b, single_spaced b v = true -> single_spaced false (lstrip v) = true.
Proof.
  induction v as [|c v IH]; intros b H; [reflexivity|].
  cbn [lstrip single_spaced] in *. destruct (isspace c) eqn:Ec.
  - apply andb_prop in H. destruct H as [_ H]. now apply (IH true).
  - cbn [single_spaced]. now rewrite Ec.
Qed.

Lemma single_spaced_prefix y z :
  forall b, single_spaced b (y ++ z) = true -> single_spaced b y = true.
Proof.
  induction y as [|c y IH]; intros b H; [reflexivity|].
  cbn [app single_spaced] in *. destruct (isspace c).
  - apply andb_prop in H. destruct H as [H1 H2].
    rewrite H1. now apply IH.
  - now apply IH.
Qed.

Lemma lstrip_head v c z : lstrip v = c :: z -> isspace c = false.
Proof.
  induction v as [|d v IH]; [discriminate|].
  cbn [lstrip]. destruct (isspace d) eqn:Ed; [exact IH|].
  intros H. injection H as <- _. exact Ed.
Qed.

Lemma spaced_words_of_single_spaced v c :
  isspace c = false ->
  (single_spaced true (v ++ [c]) = true ->
   spaced_words false (v ++ [c]) = true) /\
  (single_spaced false (v ++ [c]) = true ->
   spaced_words true (v ++ [c]) = true).
Proof.
  intros Hc. induction v as [|d v [IH1 IH2]].
  - cbn. rewrite Hc. auto.
  - cbn [app single_spaced spaced_words]. destruct (isspace d).
    + split; intros H; apply andb_prop in H; destruct H as [H1 H2];
        apply andb_prop in H1; destruct H1 as [Hd Hb]; [discriminate|].
      rewrite Hd. cbn. now apply IH1.
    + split; intros H; now apply IH2.
Qed.

Lemma split_from_nonempty v :
  forall w, w <> [] -> split_from w v <> [].
Proof.
  induction v as [|c v IH]; intros w Hw.
  - cbn. destruct w; [congruence|discriminate].
  - cbn [split_from]. destruct (isspace c).
    + destruct w; [congruence|discriminate].
    + apply IH. now destruct w.
Qed.

Lemma join_cons w l : l <> [] -> join (w :: l) = w ++ " "%char :: join l.
Proof. destruct l; [congruence|reflexivity]. Qed.

Lemma split_words_nonempty v :
  spaced_words false v = true -> split_from [] v <> [].
Proof.
  destruct v as [|c v]; [discriminate|]. cbn [spaced_words split_from].
  destruct (isspace c); [rewrite andb_false_r; discriminate|].
  intros _. apply split_from_nonempty. discriminate.
Qed.

Lemma join_split_spaced v :
  (forall w, w <> [] -> spaced_words true v = true ->
             join (split_from w v) = w ++ v) /\
  (spaced_words false v = true -> join (split_from [] v) = v).
Proof.
  induction v as [|c v [IHt IHf]].
  - split; [|discriminate]. intros w Hw _. cbn.
    destruct w; [congruence|]. cbn. now rewrite app_nil_r.
  - cbn [split_from spaced_words]. destruct (isspace c) eqn:Ec.
    + split; [|rewrite andb_false_r; discriminate].
      intros w Hw H. apply andb_prop in H. destruct H as [H1 H2].
      apply andb_prop in H1. destruct H1 as [Hc _].
      apply Ascii.eqb_eq in Hc. subst c.
      destruct w as [|w0 w]; [congruence|]. cbn [is_empty].
      rewrite join_cons by now apply split_words_nonempty.
      now rewrite IHf.
    + split.
      * intros w Hw H. rewrite IHt; [now rewrite <- app_assoc | | exact H].
        now destruct w.
      * intros H. apply (IHt [c]); [discriminate | exact H].
Qed.

Lemma join_split_words v :
  spaced_words false v = true -> join (split v) = v.
Proof. apply join_split_spaced. Qed.

(** A stripped text with single spaces is empty or made of words. *)
Lemma strip_spaced_words v :
  single_spaced false v = true ->
  strip v = [] \/ spaced_words false (strip v) = true.
Proof.
  intros Hv.
  pose proof (single_spaced_lstrip v false Hv) as Hu.
  destruct (lstrip_decompose (rev (lstrip v))) as (ws2 & E2 & _).
  assert (E3 : lstrip v = strip v ++ rev ws2).
  { unfold strip. rewrite <- rev_app_distr, <- E2. symmetry.
    apply rev_involutive. }
  rewrite E3 in Hu. apply single_spaced_prefix in Hu.
  unfold strip in *.
  destruct (lstrip (rev (lstrip v))) as [|c z] eqn:Ez; [now left|]. right.
  apply lstrip_head in Ez. cbn [rev] in *.
  pose proof (proj2 (spaced_words_of_single_spaced (rev z) c Ez) Hu) as Hw.
  destruct (rev z ++ [c]) as [|d y] eqn:Ey.
  - now destruct (rev z).
  - assert (Hd : isspace d = false).
    { apply (lstrip_head v d (y ++ rev ws2)). now rewrite E3. }
    cbn [spaced_words] in *. now rewrite Hd in *.
Qed.

Lemma normalize_text_joined t :
  normalize_text t = join (split (lower t)).
Proof.
  rewrite <- normalize_text_words_helper.
  unfold normalize_text. rewrite sub_spaces.
  destruct (strip_spaced_words (collapse_spaces false (lower t))
              (single_spaced_collapse (lower t) false)) as [E|H].
  - rewrite E. reflexivity.
  - symmetry. now apply join_split_words.
Qed.

(** X13: the normalized text is the list of the words of the lower-cased text,
    joined by one space each: [' '.join(text.lower().split())]. *)
Theorem normalize_text_is_joined_words t :
  normalize_text t = join (split (lower t)).
Proof. apply normalize_text_joined. Qed.

(** *** Normalizing twice *)

Lemma lower_char_idempotent c : lower_char (lower_char c) = lower_char c.
Proof. destruct c as [[] [] [] [] [] [] [] []]; reflexivity. Qed.

Lemma Forall_collapse (P : ascii -> Prop) u :
  P " "%char -> Forall P u -> forall b, Forall P (collapse_spaces b u).
Proof.
  intros Hsp. induction 1 as [|c u Hc _ IH]; intros b; [constructor|].
  cbn [collapse_spaces]. destruct (isspace c).
  - destruct b; [apply IH | constructor; [exact Hsp | apply IH]].
  - constructor; [exact Hc | apply IH].
Qed.

Lemma Forall_lstrip (P : ascii -> Prop) v : Forall P v -> Forall P (lstrip v).
Proof.
  induction 1 as [|c v Hc Hv IH]; [constructor|].
  cbn [lstrip]. destruct (isspace c); [exact IH | now constructor].
Qed.

Lemma Forall_strip (P : ascii -> Prop) v : Forall P v -> Forall P (strip v).
Proof.
  intros H. unfold strip.
  apply Forall_rev, Forall_lstrip, Forall_rev, Forall_lstrip, H.
Qed.

Lemma normalize_text_lower_case t :
  Forall (fun c => lower_char c = c) (normalize_text t).
Proof.
  unfold normalize_text. rewrite sub_spaces.
  apply Forall_strip, Forall_collapse; [reflexivity|].
  unfold lower. apply Forall_forall. intros c Hc.
  apply in_map_iff in Hc. destruct Hc as (c0 & <- & _).
  apply lower_char_idempotent.
Qed.

(** X14: a normalized text is in lower case already, and normalizing it again
    gives the same text. *)
Theorem normalize_text_idempotent t :
  lower (normalize_text t) = normalize_text t /\
  normalize_text (normalize_text t) = normalize_text t.
Proof.
  assert (El : lower (normalize_text t) = normalize_text t).
  { unfold lower. rewrite <- (map_id (normalize_text t)) at 2.
    apply map_ext_in. intros c Hc.
    pose proof (normalize_text_lower_case t) as H.
    rewrite Forall_forall in H. now apply H. }
  split; [exact El|].
  rewrite (normalize_text_joined (normalize_text t)), El.
  rewrite normalize_text_words_helper. symmetry. apply normalize_text_joined.
Qed.

End NormalizeFacts.

(** * The upload filter *)

Module WebAppFacts.
Import Characters WebApp TableFacts.

Lemma has_dot_In f : has_dot f = true <-> In "."%char f.
Proof.
  unfold has_dot. rewrite existsb_exists. split.
  - intros (c & Hc & E). apply Ascii.eqb_eq in E. now subst c.
  - intros H. exists "."%char. split; [exact H | apply Ascii.eqb_refl].
Qed.

Lemma set_contains_In s x : set_contains s x = true <-> In x s.
Proof.
  unfold set_contains. rewrite existsb_exists. split.
  - intros (y & Hy & E). apply text_eqb_eq in E. now subst y.
  - intros H. exists x. split; [exact H | apply text_eqb_refl].
Qed.

Lemma rsplit_dot_none f : ~ In "."%char f -> rsplit_dot f = None.
Proof.
  induction f as [|c f IH]; intros H; [reflexivity|].
  cbn [rsplit_dot]. rewrite IH by (intros Hin; apply H; now right).
  destruct (Ascii.eqb c ".") eqn:E; [|reflexivity].
  apply Ascii.eqb_eq in E. subst c. exfalso. apply H. now left.
Qed.

Lemma rsplit_dot_last stem ext :
  ~ In "."%char ext ->
  rsplit_dot (stem ++ "."%char :: ext) = Some (stem, ext).
Proof.
  intros H. induction stem as [|c stem IH].
  - cbn [app rsplit_dot]. now rewrite rsplit_dot_none.
  - cbn [app rsplit_dot]. now rewrite IH.
Qed.

Lemma rsplit_dot_some f :
  forall stem ext,
    rsplit_dot f = Some (stem, ext) ->
    f = stem ++ "."%char :: ext /\ ~ In "."%char ext.
Proof.
  induction f as [|c f IH]; intros stem ext; [discriminate|].
  cbn [rsplit_dot]. destruct (rsplit_dot f) as [[h t]|] eqn:E.
  - intros H. injection H as <- <-.
    destruct (IH h t eq_refl) as [-> Hno]. now split.
  - destruct (Ascii.eqb c ".") eqn:Ec; [|discriminate].
    intros H. injection H as <- <-. apply Ascii.eqb_eq in Ec. subst c.
    split; [reflexivity|].
    intros Hin. apply has_dot_In in Hin.
    assert (Hsome : rsplit_dot f <> None).
    { clear E IH. induction f as [|d f IHf]; [discriminate|].
      cbn [rsplit_dot]. destruct (rsplit_dot f) as [[h t]|]; [discriminate|].
      unfold has_dot in Hin. cbn [existsb] in Hin.
      rewrite Ascii.eqb_sym in Hin.
      destruct (Ascii.eqb d "."); [discriminate|].
      cbn in Hin. exfalso. now apply IHf. }
    congruence.
Qed.

(** X22: a file name is accepted exactly when it has a dot and the part after
    its last dot is, in lower case, one of the seven extensions: names
    without a dot, names that end with a dot and names whose last
    extension is another one are refused, whatever comes before. *)
Theorem allowed_file_last_extension filename :
  allowed_file filename = true <->
  exists stem ext,
    filename = stem ++ "."%char :: ext /\
    ~ In "."%char ext /\
    In (lower ext) ALLOWED_EXTENSIONS.
Proof.
  unfold allowed_file, extension. split.
  - intros H. apply andb_prop in H. destruct H as [Hdot Hext].
    destruct (rsplit_dot filename) as [[stem ext]|] eqn:E.
    + destruct (rsplit_dot_some _ _ _ E) as [-> Hno].
      exists stem, ext. split; [reflexivity|]. split; [exact Hno|].
      now apply set_contains_In.
    + apply set_contains_In in Hext. cbn in Hext.
      repeat (destruct Hext as [Hext|Hext]; [discriminate Hext|]).
      destruct Hext.
  - intros (stem & ext & -> & Hno & Hin).
    rewrite rsplit_dot_last by exact Hno.
    apply andb_true_intro. split.
    + apply has_dot_In. apply in_or_app. right. now left.
    + now apply set_contains_In.
Qed.

End WebAppFacts.

(** * The second correction of TrOCR results *)

Module MultiOcrFacts.
Import Characters SmartCorrection TextRecognizer MultiOcr.

(** X23: the correction is not idempotent, and [ocr_trocr] corrects the text
    that [recognize_text] has corrected already: its ['text'] can differ
    from its ['text_raw'].  On the model output "0Ab" the first correction
    gives "OAb", which the second turns into "OAB". *)
Theorem second_correction_can_change_text :
  ~ (forall t,
       corrected (correct_common_mistakes
                    (corrected (correct_common_mistakes t))) =
       corrected (correct_common_mistakes t)) /\
  ~ (forall image_hash generated_text c,
       snd (ocr_trocr_texts image_hash generated_text c) =
       fst (ocr_trocr_texts image_hash generated_text c)) /\
  ocr_trocr_texts (str "hash") (str "0Ab") [] = (str "OAb", str "OAB").
Proof.
  split; [|split].
  - intros H. specialize (H (str "0Ab")). vm_compute in H. discriminate H.
  - intros H. specialize (H (str "hash") (str "0Ab") []).
    vm_compute in H. discriminate H.
  - vm_compute. reflexivity.
Qed.

End MultiOcrFacts.

(** * Texts that the correction leaves alone *)

Module PlainTextFacts.
Import Characters Re SmartCorrection PlainText TableFacts.

Lemma plain_not_AZ c : plain c = true -> is_AZ c = false.
Proof.
  unfold plain. intros H. apply negb_true_iff in H.
  repeat (apply orb_false_iff in H; destruct H as [H ?]). exact H.
Qed.

Lemma plain_not_lit c d :
  plain d = false -> plain c = true -> Ascii.eqb c d = false.
Proof.
  intros Hd Hc. destruct (Ascii.eqb c d) eqn:E; [|reflexivity].
  apply Ascii.eqb_eq in E. congruence.
Qed.

(** No search finds a match where no position has one. *)
Lemma scan_without_match r (inv : option ascii -> text -> Prop) :
  (forall prev i rest, inv prev rest ->
                       match_at r (mkCursor prev i rest) = None) ->
  (forall prev c rest, inv prev (c :: rest) -> inv (Some c) rest) ->
  forall t prev i skip, inv prev t -> scan r prev i t skip = [].
Proof.
  intros Hnone Hstep. induction t as [|c t IH]; intros prev i skip Hinv.
  - destruct skip; cbn [scan]; [|reflexivity]. now rewrite Hnone.
  - destruct skip; cbn [scan].
    + rewrite Hnone by exact Hinv. apply IH. now apply (Hstep prev).
    + apply IH. now apply (Hstep prev).
Qed.

Lemma plain_cursor_step prev c rest :
  plain_cursor prev (c :: rest) -> plain_cursor (Some c) rest.
Proof.
  unfold plain_cursor, plain_text. cbn [forallb]. intros [_ H].
  apply andb_prop in H. exact H.
Qed.

Ltac use_plain :=
  repeat match goal with
         | H : plain ?c = true |- context [is_AZ ?c] =>
             rewrite (plain_not_AZ c H)
         | H : plain ?c = true |- context [Ascii.eqb ?c ?d] =>
             rewrite (plain_not_lit c d eq_refl H)
         end.

Ltac no_match :=
  let prev := fresh "prev" in
  let i := fresh "i" in
  let t := fresh "t" in
  let Hprev := fresh "Hprev" in
  let Hrest := fresh "Hrest" in
  intros prev i t [Hprev Hrest];
  unfold match_at; cbn [match_here repeat_class before rest pos advance];
  repeat match goal with
         | |- context [at_boundary ?c] => destruct (at_boundary c)
         end;
  try reflexivity;
  destruct prev as [p|]; try reflexivity;
  destruct t as [|x [|y [|z t]]];
  unfold plain_text in Hrest; cbn [forallb] in Hrest;
  repeat match goal with
         | H : (_ && _)%bool = true |- _ =>
             apply andb_prop in H; destruct H
         end;
  cbn [match_here repeat_class before rest pos advance Nat.eqb pred];
  use_plain; try reflexivity;
  repeat match goal with
         | |- context [if ?b then _ else _] => destruct b
         end;
  reflexivity.

(** In a plain text no pattern of the module has a match. *)
Lemma patterns_need_trigger :
  Forall (fun r => forall prev i rest,
                     plain_cursor prev rest ->
                     match_at r (mkCursor prev i rest) = None)
         ALL_PATTERNS.
Proof.
  unfold ALL_PATTERNS, CHAR_REPLACEMENTS. cbn [map fst app].
  unfold PATTERN_RM, PATTERN_RM_UPPER, PATTERN_RM_AFTER,
    PATTERN_RM_STANDALONE, PATTERN_RN_STANDALONE, PATTERN_RN_BETWEEN,
    PATTERN_RN_END, PATTERN_NN_BETWEEN, PATTERN_NN_STANDALONE,
    PATTERN_SHORT_WORDS.
  repeat (apply Forall_cons; [no_match|]). apply Forall_nil.
Qed.

Lemma finditer_plain r t :
  In r ALL_PATTERNS -> plain_text t = true -> finditer r t = [].
Proof.
  intros Hr Ht. unfold finditer.
  apply (scan_without_match r plain_cursor).
  - pose proof patterns_need_trigger as H. rewrite Forall_forall in H.
    now apply H.
  - apply plain_cursor_step.
  - now split.
Qed.

Lemma sub_with_plain r repl t :
  In r ALL_PATTERNS -> plain_text t = true -> sub_with r repl t = t.
Proof.
  intros Hr Ht. unfold sub_with. now rewrite finditer_plain.
Qed.

Lemma sub_plain r repl t :
  In r ALL_PATTERNS -> plain_text t = true -> sub r repl t = t.
Proof. intros Hr Ht. unfold sub. now apply sub_with_plain. Qed.

Lemma In_ALL_PATTERNS_named :
  In PATTERN_RM ALL_PATTERNS /\ In PATTERN_RM_UPPER ALL_PATTERNS /\
  In PATTERN_RM_AFTER ALL_PATTERNS /\ In PATTERN_RM_STANDALONE ALL_PATTERNS /\
  In PATTERN_RN_STANDALONE ALL_PATTERNS /\ In PATTERN_RN_BETWEEN ALL_PATTERNS /\
  In PATTERN_RN_END ALL_PATTERNS /\ In PATTERN_NN_BETWEEN ALL_PATTERNS /\
  In PATTERN_NN_STANDALONE ALL_PATTERNS /\ In PATTERN_SHORT_WORDS ALL_PATTERNS.
Proof.
  unfold ALL_PATTERNS. repeat split; apply in_or_app; left; cbn [In]; tauto.
Qed.

Lemma collapse_plain t : plain_text t = true -> collapse_rm_rn_nn t = t.
Proof.
  intros Ht.
  destruct In_ALL_PATTERNS_named
    as (_ & H1 & H2 & H3 & H4 & H5 & H6 & H7 & H8 & _).
  unfold collapse_rm_rn_nn. cbv zeta.
  rewrite (sub_plain _ _ t H1 Ht), (sub_plain _ _ t H2 Ht),
    (sub_plain _ _ t H3 Ht), (sub_plain _ _ t H4 Ht),
    (sub_plain _ _ t H5 Ht), (sub_plain _ _ t H6 Ht),
    (sub_plain _ _ t H7 Ht).
  now apply sub_plain.
Qed.

Lemma char_loop_plain t prs :
  plain_text t = true ->
  (forall pr, In pr prs -> In (fst pr) ALL_PATTERNS) ->
  forall acc, fold_left replace_chars prs (t, acc) = (t, acc).
Proof.
  intros Ht. induction prs as [|[pattern replacement] prs IH]; intros Hin acc.
  - reflexivity.
  - cbn [fold_left]. unfold replace_chars at 2.
    rewrite (sub_plain pattern replacement t) by
      (try exact Ht; apply (Hin (pattern, replacement)); now left).
    rewrite text_eqb_refl. cbn [negb].
    apply IH. intros pr Hpr. apply Hin. now right.
Qed.

(** X24: a text without capital letter and without any of the letters r, n
    and v comes back as it is, with no correction recorded: every rule
    needs one of these characters. *)
Theorem plain_text_is_left_unchanged t :
  plain_text t = true ->
  correct_common_mistakes t = mkCorrection t t false [].
Proof.
  intros Ht.
  destruct In_ALL_PATTERNS_named as (Hrm & _ & _ & _ & _ & _ & _ & _ & _ & Hsw).
  unfold correct_common_mistakes, repair_rm_words.
  rewrite (finditer_plain _ t Hrm Ht). cbn [rev fold_left]. cbv zeta.
  rewrite (collapse_plain t Ht), (sub_with_plain _ _ t Hsw Ht).
  rewrite text_eqb_refl. cbn [negb].
  rewrite (char_loop_plain t CHAR_REPLACEMENTS Ht).
  - cbv beta iota. rewrite text_eqb_refl. reflexivity.
  - intros pr Hpr. unfold ALL_PATTERNS. apply in_or_app. right.
    now apply in_map.
Qed.

Lemma plain_text_is_left_unchanged_witness :
  plain_text (str "it's 5 o'clock, 10 miles left") = true /\
  correct_common_mistakes (str "it's 5 o'clock, 10 miles left") =
    mkCorrection (str "it's 5 o'clock, 10 miles left")
      (str "it's 5 o'clock, 10 miles left") false [].
Proof.
  assert (H : plain_text (str "it's 5 o'clock, 10 miles left") = true)
    by reflexivity.
  split; [exact H|]. exact (plain_text_is_left_unchanged _ H).
Defined.

End PlainTextFacts.

(** * The correction never lengthens a text *)

Module LengthFacts.
Import Characters Re SmartCorrection Spans PlainText TableFacts.

Lemma repeat_class_span {R : Type} (p : ascii -> bool) more :
  forall lo cur (k : cursor -> option R) res,
    repeat_class p lo more cur k = Some res ->
    exists cur',
      k cur' = Some res /\
      pos cur + lo <= pos cur' /\
      pos cur' + length (rest cur') = pos cur + length (rest cur).
Proof.
  induction more as [|more IH]; intros lo cur k res H.
  - cbn [repeat_class] in H. destruct lo; [|discriminate].
    exists cur. repeat split; [exact H | lia].
  - cbn [repeat_class] in H.
    assert (Hstop : (if lo =? 0 then k cur else None) = Some res ->
                    exists cur',
                      k cur' = Some res /\ pos cur + lo <= pos cur' /\
                      pos cur' + length (rest cur') =
                      pos cur + length (rest cur)).
    { destruct lo; [|discriminate]. intros Hk.
      exists cur. repeat split; [exact Hk | lia]. }
    destruct (rest cur) as [|c t] eqn:Erest; [now apply Hstop|].
    destruct (p c); [|now apply Hstop].
    destruct (repeat_class p (pred lo) more (advance c t cur) k) as [res'|]
      eqn:Erec; [|now apply Hstop].
    injection H as <-. apply IH in Erec.
    destruct Erec as (cur' & Hk & Hpos & Hlen).
    cbn [advance pos rest] in *. exists cur'.
    repeat split; [exact Hk | lia | cbn [length]; lia].
Qed.

(** A match ends after the least length of its pattern, within the
    text. *)
Lemma match_here_span {R : Type} (r : regex) :
  forall cur gs (k : cursor -> list (nat * nat) -> option R) res,
    match_here r cur gs k = Some res ->
    exists cur' gs',
      k cur' gs' = Some res /\
      pos cur + min_len r <= pos cur' /\
      pos cur' + length (rest cur') = pos cur + length (rest cur).
Proof.
  induction r as [c|p| |p|p|p lo hi|r IH|r1 IH1 r2 IH2];
    intros cur gs k res H; cbn [match_here min_len] in H |- *.
  - destruct (rest cur) as [|x t] eqn:E; [discriminate|].
    destruct (Ascii.eqb x c); [|discriminate].
    exists (advance x t cur), gs. cbn [advance pos rest length].
    repeat split; [exact H | lia | lia].
  - destruct (rest cur) as [|x t] eqn:E; [discriminate|].
    destruct (p x); [|discriminate].
    exists (advance x t cur), gs. cbn [advance pos rest length].
    repeat split; [exact H | lia | lia].
  - destruct (at_boundary cur); [|discriminate].
    exists cur, gs. repeat split; [exact H | lia].
  - destruct (rest cur) as [|x t] eqn:E; [discriminate|].
    destruct (p x); [|discriminate].
    exists cur, gs. repeat split; [exact H | lia | now rewrite E].
  - destruct (before cur) as [x|]; [|discriminate].
    destruct (p x); [|discriminate].
    exists cur, gs. repeat split; [exact H | lia].
  - apply repeat_class_span in H. destruct H as (cur' & Hk & Hpos & Hlen).
    now exists cur', gs.
  - apply IH in H. destruct H as (cur' & gs' & Hk & Hpos & Hlen).
    now exists cur', (gs' ++ [(pos cur, pos cur')]).
  - apply IH1 in H. destruct H as (cur1 & gs1 & H & Hpos1 & Hlen1).
    apply IH2 in H. destruct H as (cur2 & gs2 & H & Hpos2 & Hlen2).
    exists cur2, gs2. repeat split; [exact H | lia | lia].
Qed.

Lemma match_at_span r cur m :
  match_at r cur = Some m ->
  m_start m = pos cur /\
  pos cur + min_len r <= m_end m /\
  m_end m <= pos cur + length (rest cur).
Proof.
  unfold match_at. intros H. apply match_here_span in H.
  destruct H as (cur' & gs' & H & Hpos & Hlen).
  injection H as <-. cbn [m_start m_end]. repeat split; lia.
Qed.

Lemma spans_ok_weaken k lo lo' n ms :
  lo' <= lo -> spans_ok k lo n ms -> spans_ok k lo' n ms.
Proof.
  destruct ms as [|m ms]; [easy|]. cbn [spans_ok].
  intros Hlo (H1 & H2 & H3 & H4). repeat split; try assumption. lia.
Qed.

Lemma scan_spans r :
  1 <= min_len r ->
  forall t prev i skip,
    spans_ok (min_len r) (i + skip) (i + length t) (scan r prev i t skip).
Proof.
  intros Hk. induction t as [|c t IH]; intros prev i skip.
  - destruct skip; cbn [scan]; [|exact I].
    destruct (match_at r (mkCursor prev i [])) as [m|] eqn:E; [|exact I].
    apply match_at_span in E. cbn [pos rest length] in E.
    cbn [spans_ok]. lia.
  - destruct skip; cbn [scan].
    + destruct (match_at r (mkCursor prev i (c :: t))) as [m|] eqn:E.
      * apply match_at_span in E. cbn [pos rest length] in E.
        cbn [spans_ok length]. repeat split; try lia.
        specialize (IH (Some c) (S i) (m_end m - i - 1)).
        replace (S i + (m_end m - i - 1)) with (m_end m) in IH by lia.
        replace (i + S (length t)) with (S i + length t) by lia.
        exact IH.
      * specialize (IH (Some c) (S i) 0).
        replace (i + length (c :: t)) with (S i + length t) by (cbn; lia).
        apply (spans_ok_weaken _ (S i + 0)); [lia | exact IH].
    + specialize (IH (Some c) (S i) skip).
      replace (i + S skip) with (S i + skip) by lia.
      replace (i + length (c :: t)) with (S i + length t) by (cbn; lia).
      exact IH.
Qed.

Lemma length_slice t a b : a <= b -> b <= length t -> length (slice t a b) = b - a.
Proof.
  intros Hab Hb. unfold slice. rewrite length_firstn, length_skipn. lia.
Qed.

(** Replacing each match by a text that is not longer gives a text that
    is not longer. *)
Lemma replace_matches_length t k repl ms :
  forall from,
    spans_ok k from (length t) ms ->
    from <= length t ->
    (forall m, In m ms -> m_start m + k <= m_end m ->
               m_end m <= length t ->
               length (repl m) <= m_end m - m_start m) ->
    length (replace_matches t from ms repl) + from <= length t.
Proof.
  induction ms as [|m ms IH]; intros from Hok Hfrom Hrepl.
  - cbn [replace_matches]. rewrite length_skipn. lia.
  - cbn [replace_matches spans_ok] in *.
    destruct Hok as (H1 & H2 & H3 & H4).
    rewrite !length_app, length_slice by lia.
    specialize (IH (m_end m) H4 H3).
    assert (Hm : length (repl m) <= m_end m - m_start m)
      by (apply Hrepl; [now left | lia | lia]).
    assert (Hrest : length (replace_matches t (m_end m) ms repl) + m_end m
                    <= length t).
    { apply IH. intros m' Hin. apply Hrepl. now right. }
    lia.
Qed.

Lemma sub_with_length r repl t :
  1 <= min_len r ->
  (forall m, m_start m + min_len r <= m_end m -> m_end m <= length t ->
             length (repl t m) <= m_end m - m_start m) ->
  length (sub_with r repl t) <= length t.
Proof.
  intros Hk Hrepl. unfold sub_with, finditer.
  pose proof (scan_spans r Hk t None 0 0) as Hok. cbn [Nat.add] in Hok.
  pose proof (replace_matches_length t (min_len r) (repl t)
                (scan r None 0 t 0) 0 Hok (Nat.le_0_l _)) as H.
  rewrite Nat.add_0_r in H. apply H. intros m _. apply Hrepl.
Qed.

Lemma sub_length r c t :
  1 <= min_len r -> length (sub r [c] t) <= length t.
Proof.
  intros Hk. unfold sub. apply sub_with_length; [exact Hk|].
  intros m Hm _. cbn [length]. lia.
Qed.

Lemma length_slice_le t a b : length (slice t a b) <= b - a.
Proof. unfold slice. rewrite length_firstn. lia. Qed.

Lemma length_upper t : length (upper t) = length t.
Proof. apply length_map. Qed.

Lemma sub_with_replacement_length r repl t :
  1 <= min_len r -> length repl <= min_len r ->
  length (sub r repl t) <= length t.
Proof.
  intros Hk Hrepl. unfold sub. apply sub_with_length; [exact Hk|].
  intros m Hm _. lia.
Qed.

(** *** The substitutions *)

Lemma collapse_length t : length (collapse_rm_rn_nn t) <= length t.
Proof.
  unfold collapse_rm_rn_nn. cbv zeta.
  repeat match goal with
         | |- length (sub ?r ?repl ?x) <= _ =>
             apply (Nat.le_trans _ (length x));
             [apply sub_with_replacement_length; cbn; lia|]
         end.
  apply Nat.le_refl.
Qed.

Lemma short_words_length t :
  length (sub_with PATTERN_SHORT_WORDS uppercase_short_words t) <= length t.
Proof.
  apply sub_with_length; [cbn; lia|].
  intros m Hm Hend. unfold uppercase_short_words. cbv zeta.
  cbn [group]. destruct (_ && _)%bool; rewrite ?length_upper;
    apply length_slice_le.
Qed.

Lemma char_loop_length prs :
  (forall pr, In pr prs ->
              1 <= min_len (fst pr) /\ length (snd pr) <= min_len (fst pr)) ->
  forall c acc,
    length (fst (fold_left replace_chars prs (c, acc))) <= length c.
Proof.
  induction prs as [|[pattern replacement] prs IH]; intros Hprs c acc.
  - apply Nat.le_refl.
  - cbn [fold_left]. unfold replace_chars at 2.
    destruct (Hprs (pattern, replacement) (or_introl eq_refl)) as [H1 H2].
    cbn [fst snd] in H1, H2.
    pose proof (sub_with_replacement_length pattern replacement c H1 H2) as Hs.
    assert (Hrest : forall pr, In pr prs ->
              1 <= min_len (fst pr) /\ length (snd pr) <= min_len (fst pr))
      by (intros pr Hpr; apply Hprs; now right).
    destruct (negb (text_eqb c (sub pattern replacement c)));
      (eapply Nat.le_trans; [apply (IH Hrest) | exact Hs]).
Qed.

Lemma char_replacements_shrink :
  forall pr, In pr CHAR_REPLACEMENTS ->
             1 <= min_len (fst pr) /\ length (snd pr) <= min_len (fst pr).
Proof.
  intros pr H. unfold CHAR_REPLACEMENTS in H. cbn [In] in H.
  repeat (destruct H as [<-|H]; [cbn; lia|]). destruct H.
Qed.

(** *** The first loop *)

Lemma scan_In r t :
  forall prev i skip m,
    In m (scan r prev i t skip) -> exists cur, match_at r cur = Some m.
Proof.
  induction t as [|c t IH]; intros prev i skip m H.
  - destruct skip; cbn [scan] in H; [|destruct H].
    destruct (match_at r (mkCursor prev i [])) as [m'|] eqn:E; [|destruct H].
    destruct H as [<-|[]]. now exists (mkCursor prev i []).
  - destruct skip; cbn [scan] in H.
    + destruct (match_at r (mkCursor prev i (c :: t))) as [m'|] eqn:E.
      * destruct H as [<-|H]; [now exists (mkCursor prev i (c :: t))|].
        now apply IH in H.
      * now apply IH in H.
    + now apply IH in H.
Qed.

(** The two groups of a match of [PATTERN_RM]: the capital letter, and
    the letters after "rm". *)
Lemma match_at_rm_groups cur m :
  match_at PATTERN_RM cur = Some m ->
  m_groups m = [(m_start m, S (m_start m)); (m_start m + 3, m_end m)].
Proof.
  intros H. pose proof (match_at_span _ _ _ H) as [Hstart _].
  rewrite Hstart. revert H.
  unfold match_at, PATTERN_RM. cbn [match_here].
  destruct (at_boundary cur); [|discriminate].
  destruct (rest cur) as [|x t1]; [discriminate|].
  destruct (is_AZ x); [|discriminate].
  cbn [rest advance]. destruct t1 as [|y t2]; [discriminate|].
  destruct (Ascii.eqb y "r"); [|discriminate].
  cbn [rest advance]. destruct t2 as [|z t3]; [discriminate|].
  destruct (Ascii.eqb z "m"); [|discriminate].
  cbn [rest advance pos]. intros H.
  apply repeat_class_span in H. destruct H as (cur' & H & _).
  destruct (at_boundary cur'); [|discriminate].
  injection H as <-. cbn [m_groups m_end app].
  repeat f_equal. lia.
Qed.

Lemma repaired_word_length t m :
  (exists cur, match_at PATTERN_RM cur = Some m) ->
  length (group t m 1 ++ ["M"%char] ++ upper (group t m 2))
  <= m_end m - m_start m.
Proof.
  intros [cur H].
  pose proof (match_at_rm_groups cur m H) as Hg.
  apply match_at_span in H. destruct H as (Hs & Hlen & _).
  change (min_len PATTERN_RM) with 4 in Hlen.
  unfold group. rewrite Hg. cbn [nth_error].
  rewrite !length_app, length_upper. cbn [length].
  pose proof (length_slice_le t (m_start m) (S (m_start m))).
  pose proof (length_slice_le t (m_start m + 3) (m_end m)).
  lia.
Qed.

(** The matches are rewritten from the last one to the first: the text
    before the match at hand is still as in the input. *)
Lemma repair_loop_length t ms :
  forall lo,
    spans_ok 4 lo (length t) ms ->
    lo <= length t ->
    (forall m, In m ms -> exists cur, match_at PATTERN_RM cur = Some m) ->
    lo <= length (fst (fold_left (repair_word t) (rev ms) (t, []))) /\
    length (fst (fold_left (repair_word t) (rev ms) (t, []))) <= length t.
Proof.
  induction ms as [|m ms IH]; intros lo Hok Hlo Hms.
  - cbn. lia.
  - cbn [spans_ok] in Hok. destruct Hok as (H1 & H2 & H3 & H4).
    cbn [rev]. rewrite fold_left_app. cbn [fold_left].
    destruct (IH (m_end m) H4 H3) as [Hge Hle];
      [intros m' Hm'; apply Hms; now right|].
    destruct (fold_left (repair_word t) (rev ms) (t, [])) as [c cs].
    cbn [fst] in *. unfold repair_word. cbv zeta. cbn [fst].
    pose proof (repaired_word_length t m (Hms m (or_introl eq_refl))) as Hw.
    rewrite !length_app in *. rewrite length_firstn, length_skipn.
    cbn [length] in *. lia.
Qed.

Lemma repair_rm_words_length t :
  length (fst (repair_rm_words t)) <= length t.
Proof.
  unfold repair_rm_words, finditer.
  apply (repair_loop_length t (scan PATTERN_RM None 0 t 0) 0).
  - assert (Hk : 1 <= min_len PATTERN_RM) by (cbn; lia).
    exact (scan_spans PATTERN_RM Hk t None 0 0).
  - lia.
  - intros m Hm. now apply scan_In in Hm.
Qed.

(** X25: the corrected text is never longer than the text given: every rule
    replaces what it matches by something of the same length or
    shorter. *)
Theorem correction_never_lengthens t :
  length (corrected (correct_common_mistakes t)) <= length t /\
  length (best_result (smart_correct t)) <= length t.
Proof.
  assert (H : length (corrected (correct_common_mistakes t)) <= length t).
  { unfold correct_common_mistakes.
    pose proof (repair_rm_words_length t) as H0.
    destruct (repair_rm_words t) as [c0 acc0]. cbn [fst] in H0. cbv zeta.
    pose proof (collapse_length c0) as H1.
    pose proof (short_words_length (collapse_rm_rn_nn c0)) as H2.
    match goal with
    | |- context [fold_left replace_chars CHAR_REPLACEMENTS (?c, ?acc)] =>
        pose proof (char_loop_length CHAR_REPLACEMENTS
                      char_replacements_shrink c acc) as H3;
        destruct (fold_left replace_chars CHAR_REPLACEMENTS (c, acc))
          as [c3 acc3]
    end.
    cbn [fst corrected] in *. lia. }
  split; [exact H|]. exact H.
Qed.

End LengthFacts.

(** * The character error rate at its ends *)

Module CerFacts.
Import Characters Levenshtein LevenshteinFacts AccuracyMetrics.
Import MetricsFacts WerFacts AccuracyFacts.

(** X26: the character error rate is 0 for equal texts and for them only. *)
Theorem calculate_cer_zero_iff gt pred :
  (calculate_cer gt pred == 0)%Q <-> gt = pred.
Proof.
  split; [apply cer_zero_eq|]. intros ->. apply cer_same.
Qed.

(** X27: a candidate that is not empty and at least twice as long as the
    reference has the greatest error rate, 1, and the character accuracy
    0. *)
Theorem calculate_cer_saturates gt pred :
  is_empty pred = false ->
  2 * length gt <= length pred ->
  (calculate_cer gt pred == 1)%Q /\ (calculate_accuracy gt pred == 0)%Q.
Proof.
  intros Hne Hlen.
  assert (Hcer : (calculate_cer gt pred == 1)%Q).
  { unfold calculate_cer. destruct (is_empty gt) eqn:Egt.
    - rewrite Hne. reflexivity.
    - apply Q.min_r.
      apply Qle_shift_div_l; [now apply Qlen_pos|].
      rewrite Qmult_1_l. apply Qnat_le.
      rewrite calculate_levenshtein_distance_spec.
      pose proof (LevenshteinBounds.edit_distance_ge_diff (rev gt) (rev pred))
        as [_ H].
      rewrite !length_rev in H. lia. }
  split; [exact Hcer|].
  rewrite accuracy_formula, Hcer. reflexivity.
Qed.

Lemma calculate_cer_saturates_witness :
  is_empty (str "abcd") = false /\
  2 * length (str "xy") <= length (str "abcd") /\
  (calculate_cer (str "xy") (str "abcd") == 1)%Q.
Proof.
  assert (H1 : is_empty (str "abcd") = false) by reflexivity.
  assert (H2 : 2 * length (str "xy") <= length (str "abcd")) by (cbn; lia).
  split; [exact H1|]. split; [exact H2|].
  exact (proj1 (calculate_cer_saturates (str "xy") (str "abcd") H1 H2)).
Defined.

End CerFacts.

(** ** Texts with code points above 255 *)

Module UnicodeFacts.
Import Characters AccuracyMetrics WhiteSpace Unicode.

(** *** On code points below 256 the functions are those of the first
    model *)

Lemma text_eqb_u_latin1 a b :
  text_eqb_u (of_latin1 a) (of_latin1 b) = text_eqb a b.
Proof.
  revert b. induction a as [|x a IH]; intros [|y b]; simpl; try reflexivity.
  now rewrite IH.
Qed.

Lemma lower_from_u_latin1 before t :
  lower_from_u before (of_latin1 t) = of_latin1 (lower t).
Proof.
  revert before. induction t as [|c t IH]; intros before; [reflexivity|].
  simpl. f_equal. apply IH.
Qed.

Lemma lower_u_latin1 t : lower_u (of_latin1 t) = of_latin1 (lower t).
Proof. apply lower_from_u_latin1. Qed.

Lemma sub_spaces_u_latin1 in_run t :
  sub_spaces_u in_run (of_latin1 t) = of_latin1 (collapse_spaces in_run t).
Proof.
  revert in_run. induction t as [|c t IH]; intros in_run; [reflexivity|].
  simpl. destruct (isspace c).
  - destruct in_run; simpl; now rewrite IH.
  - simpl. now rewrite IH.
Qed.

Lemma lstrip_u_latin1 t : lstrip_u (of_latin1 t) = of_latin1 (lstrip t).
Proof.
  induction t as [|c t IH]; [reflexivity|].
  simpl. now destruct (isspace c).
Qed.

Lemma strip_u_latin1 t : strip_u (of_latin1 t) = of_latin1 (strip t).
Proof.
  unfold strip_u, strip. rewrite lstrip_u_latin1.
  unfold of_latin1 at 1. rewrite <- map_rev.
  fold (of_latin1 (rev (lstrip t))). rewrite lstrip_u_latin1.
  unfold of_latin1. now rewrite map_rev.
Qed.

Lemma split_from_u_latin1 word t :
  split_from_u (of_latin1 word) (of_latin1 t) =
  map of_latin1 (split_from word t).
Proof.
  revert word. induction t as [|c t IH]; intros word; simpl.
  - now destruct word.
  - destruct (isspace c).
    + destruct word; simpl; f_equal; apply (IH []).
    + rewrite <- IH. unfold of_latin1. now rewrite map_app.
Qed.

Lemma split_u_latin1 t : split_u (of_latin1 t) = map of_latin1 (split t).
Proof. apply (split_from_u_latin1 []). Qed.

Lemma normalize_text_u_latin1 t :
  normalize_text_u (of_latin1 t) = of_latin1 (normalize_text t).
Proof.
  unfold normalize_text_u, normalize_text.
  now rewrite lower_u_latin1, sub_spaces_u_latin1, strip_u_latin1,
    NormalizeFacts.sub_spaces.
Qed.

Lemma words_u_latin1 t :
  split_u (normalize_text_u (of_latin1 t)) =
  map of_latin1 (split (normalize_text t)).
Proof. now rewrite normalize_text_u_latin1, split_u_latin1. Qed.

Lemma correct_words_u_latin1 g p :
  correct_words_u (map of_latin1 g) (map of_latin1 p) = correct_words g p.
Proof.
  unfold correct_words_u, correct_words.
  revert p. induction g as [|x g IH]; intros [|y p]; simpl; try reflexivity.
  rewrite text_eqb_u_latin1. destruct (text_eqb x y); simpl; now rewrite IH.
Qed.

Lemma fold_left_same {A B : Type} (f g : A -> B -> A) l :
  (forall a b, f a b = g a b) ->
  forall a, fold_left f l a = fold_left g l a.
Proof.
  intros H. induction l as [|b l IH]; intros a; simpl; [reflexivity|].
  now rewrite H, IH.
Qed.

Lemma wer_cell_u_latin1 g p i dp j :
  wer_cell_u (map of_latin1 g) (map of_latin1 p) i dp j = wer_cell g p i dp j.
Proof.
  unfold wer_cell_u, wer_cell.
  change (@nil uchar) with (of_latin1 []).
  now rewrite !map_nth, text_eqb_u_latin1.
Qed.

Lemma wer_table_u_latin1 g p :
  wer_table_u (map of_latin1 g) (map of_latin1 p) = wer_table g p.
Proof.
  unfold wer_table_u, wer_table. rewrite !length_map. cbv zeta.
  apply fold_left_same. intros dp i.
  apply fold_left_same. intros dp' j. apply wer_cell_u_latin1.
Qed.

Lemma is_empty_map {A B : Type} (f : A -> B) l :
  is_empty (map f l) = is_empty l.
Proof. now destruct l. Qed.

Lemma calculate_word_accuracy_u_latin1 a b :
  calculate_word_accuracy_u (of_latin1 a) (of_latin1 b) =
  calculate_word_accuracy a b.
Proof.
  unfold calculate_word_accuracy_u, calculate_word_accuracy.
  rewrite !words_u_latin1, !is_empty_map, correct_words_u_latin1.
  unfold Qlen. now rewrite length_map.
Qed.

Lemma calculate_wer_u_latin1 a b :
  calculate_wer_u (of_latin1 a) (of_latin1 b) = calculate_wer a b.
Proof.
  unfold calculate_wer_u, calculate_wer.
  rewrite !words_u_latin1, !is_empty_map, wer_table_u_latin1.
  unfold Qlen. now rewrite !length_map.
Qed.

(** *** Lower case without a capital sigma *)

Lemma lower_from_u_map before t :
  ~ In CapitalSigma t -> lower_from_u before t = map lower_char_u t.
Proof.
  revert before. induction t as [|c t IH]; intros before Hno; [reflexivity|].
  simpl. rewrite IH by (intros H; apply Hno; now right).
  f_equal. destruct c; try reflexivity. exfalso. apply Hno. now left.
Qed.

(** Two texts without a capital sigma that differ only in letter case
    have the same lower-cased form. *)
Lemma lower_u_same_up_to_case a b :
  ~ In CapitalSigma a -> ~ In CapitalSigma b ->
  same_up_to_case_u a b -> lower_u a = lower_u b.
Proof.
  intros Ha Hb Hab. unfold lower_u.
  rewrite !lower_from_u_map by assumption.
  induction Hab as [|x y a b Hxy _ IH]; [reflexivity|].
  simpl. rewrite Hxy. f_equal. apply IH.
  - intros H. apply Ha. now right.
  - intros H. apply Hb. now right.
Qed.

(** *** The final sigma *)

(** The capital sigma alone, between two letters, after a letter, after a
    letter and an apostrophe, and at the end of the first of two words. *)
Lemma lower_u_capital_sigma :
  lower_u [CapitalSigma] = [SmallSigma] /\
  lower_u [CapitalAlpha; CapitalSigma; CapitalAlpha] =
    [SmallAlpha; SmallSigma; SmallAlpha] /\
  lower_u [Latin1 "a"%char; CapitalSigma] = [Latin1 "a"%char; FinalSigma] /\
  lower_u [Latin1 "A"%char; Latin1 "'"%char; CapitalSigma] =
    [Latin1 "a"%char; Latin1 "'"%char; FinalSigma] /\
  lower_u [CapitalAlpha; CapitalSigma; Latin1 " "%char; CapitalSigma] =
    [SmallAlpha; FinalSigma; Latin1 " "%char; SmallSigma].
Proof. repeat split. Qed.

(** C9 as stated fails: the texts made of a capital alpha and a capital
    sigma, and of a small alpha and a small sigma, differ only in letter
    case; the capital sigma, at the end of a word, becomes the final small
    sigma, so the two lower-cased texts are different words: the word
    accuracy is 0 and the word error rate 1, when identical texts get 100
    and 0. *)
Lemma final_sigma_words_differ :
  same_up_to_case_u capital_alpha_sigma small_alpha_sigma /\
  lower_u capital_alpha_sigma = [SmallAlpha; FinalSigma] /\
  lower_u small_alpha_sigma = [SmallAlpha; SmallSigma] /\
  (calculate_word_accuracy_u capital_alpha_sigma small_alpha_sigma == 0)%Q /\
  (calculate_wer_u capital_alpha_sigma small_alpha_sigma == 1)%Q /\
  (calculate_word_accuracy_u capital_alpha_sigma capital_alpha_sigma == 100)%Q /\
  (calculate_wer_u capital_alpha_sigma capital_alpha_sigma == 0)%Q /\
  ~ (calculate_word_accuracy_u capital_alpha_sigma small_alpha_sigma ==
     calculate_word_accuracy_u capital_alpha_sigma capital_alpha_sigma)%Q /\
  ~ (calculate_wer_u capital_alpha_sigma small_alpha_sigma ==
     calculate_wer_u capital_alpha_sigma capital_alpha_sigma)%Q.
Proof.
  split; [repeat constructor|].
  split; [reflexivity|]. split; [reflexivity|].
  split; [reflexivity|]. split; [reflexivity|].
  split; [reflexivity|]. split; [reflexivity|].
  split; intros H; vm_compute in H; discriminate.
Qed.

End UnicodeFacts.
